(** * mt_server.c and algo.c

    A shallow embedding of [src/mt_server.c] (connection queue, client
    registry, worker and sender threads, start-up) and of the frame
    routines of [src/algo.c].  The two shared data
    structures are modelled as the C code lays them out: the client
    manager is an [int] array with a fill count, the connection queue is a
    singly linked list of heap nodes reached through a head and a tail
    pointer.  Every critical section of the source runs under the mutex of
    the structure it touches, so each one is an atomic transition here.
    Results of system calls ([malloc], [send], [recv], [accept],
    [pthread_create], ...) are supplied by the environment as arguments.

    Part I holds the model, the later parts the properties proved about
    it. *)

From Stdlib Require Import ZArith Lia.
From stdpp Require Import base list gmap strings pretty sorting.

Local Open Scope Z_scope.

(* ===================================================================== *)
(** * Part I: the model                                                   *)
(* ===================================================================== *)

(** ** Constants ([#define]s of mt_server.c) *)

Definition PORT : Z := 8080.
Definition BACKLOG : Z := 10.
Definition BUFFER_SIZE : Z := 1024.
Definition NUM_WORKER_THREADS : nat := 4.
Definition MAX_CLIENTS : Z := 100.
Definition EXIT_FAILURE : Z := 1.

(** ** Observable events

    Every call that leaves the process (or that a property below talks
    about) is recorded, in program order, in a trace. *)

(** The [printf] sites of the server, with the values they format. *)
Inductive log_line :=
| LogClientAdded (total : Z)            (* "New client added. Total clients: %d" *)
| LogMaxClients                         (* "Warning: Maximum clients reached, connection rejected" *)
| LogClientRemoved (fd total : Z)       (* "Client %d removed. Total clients: %d" *)
| LogSent (fd : Z) (msg : string)       (* "[SERVER] Sent to client %d: %s" *)
| LogProcessing (fd : Z)                (* "[SERVER]Worker thread processing connection %d" *)
| LogReceived (n fd : Z)                (* "[SERVER] Received %zd bytes from connection %d: %s" *)
| LogClosedByClient (fd : Z)            (* "[SERVER] Connection %d closed by client" *)
| LogListening (port : Z)               (* "Server is listening on port %d..." *)
| LogAccepted.                          (* "Accepted connection from %s:%d" *)

Inductive event :=
| EvPrintf (l : log_line)
| EvPerror (msg : string)
| EvSend (fd : Z) (data : string) (ret : Z)
| EvRecv (fd : Z) (ret : Z)
| EvClose (fd : Z)
| EvCondSignal
| EvSetsockopt (ret : Z)
| EvSocket (ret : Z)
| EvBind (fd ret : Z)
| EvListen (fd ret : Z)
| EvAccept (ret : Z)
| EvThreadCreate (ret : Z)
| EvExit (status : Z).

Global Instance log_line_eq_dec : EqDecision log_line.
Proof. solve_decision. Defined.
Global Instance event_eq_dec : EqDecision event.
Proof. solve_decision. Defined.

(** ** The client manager ([client_manager_t])

    [client_fds] is the block obtained from [malloc], one cell per [int];
    [count] is the number of cells in use.  A [NULL] array (the
    zero-initialised global before [init_client_manager]) is the empty
    block.  The mutex is not a field: every function below is one critical
    section. *)

Record client_manager_t := ClientManager {
  client_fds : list Z;
  count : Z
}.

(** [a[i]]; reading outside the block is undefined in C and never happens
    for a manager that satisfies [cm_wf] below. *)
Definition cell (a : list Z) (i : nat) : Z := default 0 (a !! i).

(** Result of a function that may call [exit]. *)
Inductive outcome (A : Type) :=
| Ret (a : A)
| Exited (status : Z).
Arguments Ret {A} a.
Arguments Exited {A} status.

(** [init_client_manager]: [block] is what [malloc(MAX_CLIENTS *
    sizeof(int))] returned, [None] for [NULL], otherwise the (arbitrary)
    initial contents of the fresh cells. *)
Definition init_client_manager (block : option (list Z))
  : outcome client_manager_t * list event :=
  match block with
  | None =>
      (Exited EXIT_FAILURE,
       [EvPerror "Failed to allocate memory for client file descriptors";
        EvExit EXIT_FAILURE])
  | Some cells => (Ret {| client_fds := cells; count := 0 |}, [])
  end.

(** [add_client] *)
Definition add_client (cm : client_manager_t) (fd : Z)
  : client_manager_t * list event :=
  if decide (count cm < MAX_CLIENTS) then
    let cm' := {| client_fds := <[Z.to_nat (count cm) := fd]> (client_fds cm);
                  count := count cm + 1 |} in
    (cm', [EvPrintf (LogClientAdded (count cm'))])
  else
    (cm, [EvPrintf LogMaxClients]).

(** [remove_client]: the [for] loop, entered at index [i] with [n]
    iterations left ([n = count - i]); a hit overwrites the cell with the
    last used one, decrements [count] and breaks. *)
Fixpoint remove_client_loop (cm : client_manager_t) (fd : Z) (i n : nat)
  : client_manager_t * list event :=
  match n with
  | O => (cm, [])
  | S n' =>
      if decide (cell (client_fds cm) i = fd) then
        let cm' := {| client_fds :=
                        <[i := cell (client_fds cm) (Z.to_nat (count cm - 1))]>
                          (client_fds cm);
                      count := count cm - 1 |} in
        (cm', [EvPrintf (LogClientRemoved fd (count cm'))])
      else remove_client_loop cm fd (S i) n'
  end.

Definition remove_client (cm : client_manager_t) (fd : Z)
  : client_manager_t * list event :=
  remove_client_loop cm fd 0 (Z.to_nat (count cm)).

(** [broadcast_to_clients]: [send_ret i] is the value returned by the
    [send] call of loop iteration [i]. *)
Fixpoint broadcast_loop (cm : client_manager_t) (data : string)
    (send_ret : nat -> Z) (i n : nat) : list event :=
  match n with
  | O => []
  | S n' =>
      let r := send_ret i in
      EvSend (cell (client_fds cm) i) data r
        :: (if decide (r < 0)
            then [EvPerror "Failed to send data to client"] else [])
        ++ broadcast_loop cm data send_ret (S i) n'
  end.

Definition broadcast_to_clients (cm : client_manager_t) (data : string)
    (send_ret : nat -> Z) : client_manager_t * list event :=
  (cm, broadcast_loop cm data send_ret 0 (Z.to_nat (count cm))).

(** The state [remove_client] leaves when it hits at index [k]. *)
Definition removed_at (cm : client_manager_t) (k : nat) : client_manager_t :=
  {| client_fds :=
       <[k := cell (client_fds cm) (Z.to_nat (count cm - 1))]> (client_fds cm);
     count := count cm - 1 |}.

(** The handles the registry currently holds: the cells in use. *)
Definition registered_fds (cm : client_manager_t) : list Z :=
  take (Z.to_nat (count cm)) (client_fds cm).

Definition registered (cm : client_manager_t) (fd : Z) : Prop :=
  fd ∈ registered_fds cm.

Global Instance registered_dec cm fd : Decision (registered cm fd).
Proof. unfold registered. apply _. Defined.

(** How many times the registry holds [fd]. *)
Definition occurrences (cm : client_manager_t) (fd : Z) : nat :=
  length (filter (fun x => x = fd) (registered_fds cm)).

(** The block is the one [init_client_manager] allocated and [count]
    stays inside it. *)
Definition cm_wf (cm : client_manager_t) : Prop :=
  length (client_fds cm) = Z.to_nat MAX_CLIENTS /\ 0 <= count cm <= MAX_CLIENTS.

(** Operations a caller can apply to the registry. *)
Inductive registry_op :=
| OpAdd (fd : Z)
| OpRemove (fd : Z)
| OpBroadcast (data : string) (send_ret : nat -> Z).

Definition apply_registry_op (cm : client_manager_t) (op : registry_op)
  : client_manager_t * list event :=
  match op with
  | OpAdd fd => add_client cm fd
  | OpRemove fd => remove_client cm fd
  | OpBroadcast data send_ret => broadcast_to_clients cm data send_ret
  end.

Definition run_registry_ops (ops : list registry_op) (cm : client_manager_t)
  : client_manager_t :=
  foldl (fun c op => fst (apply_registry_op c op)) cm ops.

(** What a trace says about [send]: the descriptors tried, and those for
    which the call did not fail. *)
Definition sends_attempted (tr : list event) : list Z :=
  omap (fun e => match e with EvSend fd _ _ => Some fd | _ => None end) tr.

Definition sends_delivered (tr : list event) : list Z :=
  omap (fun e => match e with
                 | EvSend fd _ r => if decide (r < 0) then None else Some fd
                 | _ => None
                 end) tr.

Definition send_failures_logged (tr : list event) : nat :=
  length (filter (fun e => e = EvPerror "Failed to send data to client") tr).

(** The same with the buffer each call was given: every [send] call as
    descriptor and bytes passed, and the calls among them that did not
    fail. *)
Definition send_calls (tr : list event) : list (Z * string) :=
  omap (fun e => match e with EvSend fd d _ => Some (fd, d) | _ => None end) tr.

Definition deliveries (tr : list event) : list (Z * string) :=
  omap (fun e => match e with
                 | EvSend fd d r => if decide (r < 0) then None else Some (fd, d)
                 | _ => None
                 end) tr.

(** ** The connection queue ([conn_node_t], [conn_queue_t])

    Nodes live in a heap indexed by address; [None] is [NULL].  The heap
    holds the [conn_node_t] blocks handed out by [malloc] and not yet
    passed to [free]. *)

Definition addr := positive.

Record conn_node_t := ConnNode {
  connfd : Z;
  next : option addr
}.

Record conn_queue_t := ConnQueue {
  head : option addr;
  tail : option addr
}.

Abbreviation node_heap := (gmap addr conn_node_t).

(** [init_queue] *)
Definition init_queue : conn_queue_t := {| head := None; tail := None |}.

(** [node->next = p] *)
Definition set_next (p : option addr) (n : conn_node_t) : conn_node_t :=
  {| connfd := connfd n; next := p |}.

(** [enqueue]: [node] is the pointer returned by [malloc]. *)
Definition enqueue (h : node_heap) (q : conn_queue_t) (fd : Z)
    (node : option addr) : (node_heap * conn_queue_t) * list event :=
  match node with
  | None =>
      ((h, q), [EvPerror "Failed to allocate memory for connection node"])
  | Some a =>
      let h1 := <[a := {| connfd := fd; next := None |}]> h in
      match tail q with
      | None =>
          ((h1, {| head := Some a; tail := Some a |}), [EvCondSignal])
      | Some t =>
          ((alter (set_next (Some a)) t h1,
            {| head := head q; tail := Some a |}), [EvCondSignal])
      end
  end.

(** [dequeue] either returns a descriptor, or finds the queue empty and
    waits on the condition variable ([DeqWait]: the call has not
    returned).  [DeqFault] is a head pointer that is not a live node,
    which the queue invariant excludes. *)
Inductive dequeue_result :=
| DeqRet (fd : Z) (h : node_heap) (q : conn_queue_t)
| DeqWait
| DeqFault.

Definition dequeue (h : node_heap) (q : conn_queue_t) : dequeue_result :=
  match head q with
  | None => DeqWait
  | Some a =>
      match h !! a with
      | None => DeqFault
      | Some node =>
          let hd := next node in
          DeqRet (connfd node) (delete a h)
                 {| head := hd;
                    tail := match hd with None => None | Some _ => tail q end |}
      end
  end.

(** Following [next] pointers from [p], at most [fuel] nodes. *)
Fixpoint walk (fuel : nat) (h : node_heap) (p : option addr) : list Z :=
  match fuel, p with
  | S fuel', Some a =>
      match h !! a with
      | Some node => connfd node :: walk fuel' h (next node)
      | None => []
      end
  | _, _ => []
  end.

(** The descriptors waiting in the queue, head first. *)
Definition queue_contents (h : node_heap) (q : conn_queue_t) : list Z :=
  walk (size h) h (head q).

(** [chain h p ns]: starting at pointer [p], the heap holds exactly the
    nodes [ns] (address and descriptor), linked in this order and ending
    in [NULL]. *)
Fixpoint chain (h : node_heap) (p : option addr) (ns : list (addr * Z)) : Prop :=
  match ns with
  | [] => p = None
  | (a, fd) :: ns' =>
      p = Some a /\
      exists nx, h !! a = Some {| connfd := fd; next := nx |} /\ chain h nx ns'
  end.

(** Representation invariant of the queue: the list hangs off [head],
    [tail] points at its last node, no node occurs twice, and the heap
    holds nothing but the nodes of the queue. *)
Definition queue_inv (h : node_heap) (q : conn_queue_t)
    (ns : list (addr * Z)) : Prop :=
  chain h (head q) ns /\
  tail q = last ns.*1 /\
  NoDup ns.*1 /\
  dom h = list_to_set ns.*1.

(** A pointer [malloc] may return: [NULL] or a block that is not live. *)
Definition malloc_ok (h : node_heap) (node : option addr) : bool :=
  match node with
  | None => true
  | Some a => bool_decide (h !! a = None)
  end.

(** Passes through the queue's critical sections, in the order the mutex
    serialises them. *)
Inductive queue_op :=
| Enq (fd : Z) (node : option addr)
| Deq.

(** Runs the operations from state [(h, q)] and collects the descriptors
    the [dequeue] calls returned.  A [Deq] on an empty queue leaves its
    caller waiting and returns nothing.  The run is [None] when it is not
    an execution: [malloc] returned a live block, or [dequeue] faulted. *)
Fixpoint run_queue_ops (ops : list queue_op) (h : node_heap) (q : conn_queue_t)
  : option (node_heap * conn_queue_t * list Z) :=
  match ops with
  | [] => Some (h, q, [])
  | Enq fd node :: ops' =>
      if malloc_ok h node then
        let '(h', q', _) := enqueue h q fd node in
        run_queue_ops ops' h' q'
      else None
  | Deq :: ops' =>
      match dequeue h q with
      | DeqRet fd h' q' =>
          '(h'', q'', outs) ← run_queue_ops ops' h' q';
          Some (h'', q'', fd :: outs)
      | DeqWait => run_queue_ops ops' h q
      | DeqFault => None
      end
  end.

(** The blocks [malloc] handed to the [enqueue] calls of a run. *)
Definition alloc_addrs (ops : list queue_op) : list addr :=
  omap (fun op => match op with
                  | Enq _ node => node
                  | Deq => None
                  end) ops.

(** The descriptors the run put into the queue, in call order. *)
Definition enqueued (ops : list queue_op) : list Z :=
  omap (fun op => match op with
                  | Enq fd (Some _) => Some fd
                  | _ => None
                  end) ops.

(** ** The threads

    Each thread is a program counter over the shared state; one step runs
    the thread up to and including its next system call (or critical
    section).  Program points carry the live local variables. *)

(** [worker_thread]: at [dequeue] (line 203), at the [malloc] of
    [conn_arg] (line 208), at [pthread_create] (line 210), at [recv] (line
    218), at [close] (line 228). *)
Inductive worker_pc :=
| WDequeue
| WAlloc (connfd : Z)
| WCreate (connfd : Z)
| WRecv (connfd : Z)
| WClose (connfd : Z).

(** [sender_thread]: at [send] (line 182) with the value of [counter], at
    [close] (line 189), returned. *)
Inductive sender_pc :=
| SSend (connfd : Z) (counter : Z)
| SClose (connfd : Z)
| SExit.

(** The process: the shared globals, the listening socket, the program
    points of the worker and sender threads created so far, and the trace
    of events up to now. *)
Record system := System {
  q_heap : node_heap;
  queue : conn_queue_t;           (* global [queue] *)
  clients : client_manager_t;     (* global [clients] *)
  sockfd : Z;                     (* the listening socket of [main] *)
  workers : list worker_pc;
  senders : list sender_pc;
  trace : list event
}.

Definition emit (evs : list event) (s : system) : system :=
  {| q_heap := q_heap s; queue := queue s; clients := clients s;
     sockfd := sockfd s; workers := workers s; senders := senders s;
     trace := trace s ++ evs |}.

Definition set_queue (h : node_heap) (q : conn_queue_t) (s : system) : system :=
  {| q_heap := h; queue := q; clients := clients s;
     sockfd := sockfd s; workers := workers s; senders := senders s;
     trace := trace s |}.

Definition set_worker (i : nat) (pc : worker_pc) (s : system) : system :=
  {| q_heap := q_heap s; queue := queue s; clients := clients s;
     sockfd := sockfd s; workers := <[i := pc]> (workers s);
     senders := senders s; trace := trace s |}.

Definition set_sender (j : nat) (pc : sender_pc) (s : system) : system :=
  {| q_heap := q_heap s; queue := queue s; clients := clients s;
     sockfd := sockfd s; workers := workers s;
     senders := <[j := pc]> (senders s); trace := trace s |}.

Definition spawn_sender (pc : sender_pc) (s : system) : system :=
  {| q_heap := q_heap s; queue := queue s; clients := clients s;
     sockfd := sockfd s; workers := workers s;
     senders := senders s ++ [pc]; trace := trace s |}.

(** The message [snprintf] formats in [sender_thread]. *)
Definition test_message (counter : Z) : string :=
  "Server test message #" +:+ pretty counter.

(** The range of [int], and the value an [int] holds after arithmetic
    whose exact result is [x] (two's complement, 32 bits). *)
Definition INT_MIN : Z := -2147483648.
Definition INT_MAX : Z := 2147483647.

Definition to_int (x : Z) : Z :=
  (x + 2147483648) mod 4294967296 - 2147483648.

(** What a step of a thread does to the process: the thread runs to its
    next program point; or it cannot run now (it waits on the condition
    variable); or the whole process is killed by a signal. *)
Inductive step_result :=
| Next (s : system)
| Blocked
| Killed.

Definition next_state (res : step_result) : option system :=
  match res with
  | Next s => Some s
  | Blocked | Killed => None
  end.

(** One step of worker [i] from program point [pc]; [r] is the value
    returned by the call made in this step (for [malloc] the pointer, 0
    for [NULL]).  The result of [malloc] at line 208 is not checked: when
    it is [NULL], line 209 stores through the null pointer and the
    process is killed (SIGSEGV).  A [dequeue] that follows a dead head
    pointer is an invalid access as well; the queue invariant excludes
    it. *)
Definition worker_step (i : nat) (pc : worker_pc) (r : Z) (s : system)
  : step_result :=
  match pc with
  | WDequeue =>
      match dequeue (q_heap s) (queue s) with
      | DeqRet fd h q =>
          Next (emit [EvPrintf (LogProcessing fd)]
                  (set_worker i (WAlloc fd) (set_queue h q s)))
      | DeqWait => Blocked
      | DeqFault => Killed
      end
  | WAlloc fd =>
      (* [conn_arg = malloc(sizeof(int)); *conn_arg = connfd;] *)
      if decide (r = 0) then Killed
      else Next (set_worker i (WCreate fd) s)
  | WCreate fd =>
      (* [conn_arg] only carries [connfd] to the new thread *)
      if decide (r = 0) then
        Next (emit [EvThreadCreate r]
                (spawn_sender (SSend fd 0) (set_worker i (WRecv fd) s)))
      else
        Next (emit [EvThreadCreate r; EvPerror "Failed to create sender thread"]
                (set_worker i (WRecv fd) s))
  | WRecv fd =>
      if decide (0 < r) then
        Next (emit [EvRecv fd r; EvPrintf (LogReceived r fd)] s)
      else if decide (r < 0) then
        Next (emit [EvRecv fd r;
                    EvPerror "Failed to receive data from connection"]
                (set_worker i (WClose fd) s))
      else
        Next (emit [EvRecv fd r; EvPrintf (LogClosedByClient fd)]
                (set_worker i (WClose fd) s))
  | WClose fd =>
      Next (emit [EvClose fd] (set_worker i WDequeue s))
  end.

(** One step of sender [j]; [r] is the value returned by [send].  A
    returned thread takes no step.  [counter] is an [int]: [counter++]
    at [INT_MAX] overflows, which C leaves undefined; it is taken to
    wrap around to [INT_MIN] here. *)
Definition sender_step (j : nat) (pc : sender_pc) (r : Z) (s : system)
  : option system :=
  match pc with
  | SSend fd counter =>
      let msg := test_message counter in
      if decide (r < 0) then
        Some (emit [EvSend fd msg r; EvPerror "Failed to send data"]
                (set_sender j (SClose fd) s))
      else
        (* printf, then sleep(1), then the next iteration *)
        Some (emit [EvSend fd msg r; EvPrintf (LogSent fd msg)]
                (set_sender j (SSend fd (to_int (counter + 1))) s))
  | SClose fd =>
      Some (emit [EvClose fd] (set_sender j SExit s))
  | SExit => None
  end.

(** One iteration of the accept loop of [main]: [r] is the value returned
    by [accept], [node] the pointer [malloc] returns inside [enqueue]. *)
Definition accept_step (r : Z) (node : option addr) (s : system) : system :=
  if decide (r < 0) then
    emit [EvAccept r; EvPerror "Failed to accept connection"] s
  else
    let '(h, q, evs) := enqueue (q_heap s) (queue s) r node in
    emit ([EvAccept r; EvPrintf LogAccepted] ++ evs) (set_queue h q s).

(** Scheduler choices together with the environment's answer. *)
Inductive action :=
| AAccept (r : Z) (node : option addr)
| AWorker (i : nat) (r : Z)
| ASender (j : nat) (r : Z).

(** The state after the step, if the process has one: there is none when
    the thread does not exist or cannot run, when [malloc] is said to
    return a live block, and when the step kills the process. *)
Definition step (a : action) (s : system) : option system :=
  match a with
  | AAccept r node =>
      if malloc_ok (q_heap s) node then Some (accept_step r node s) else None
  | AWorker i r => pc ← workers s !! i; next_state (worker_step i pc r s)
  | ASender j r => pc ← senders s !! j; sender_step j pc r s
  end.

Fixpoint run (acts : list action) (s : system) : option system :=
  match acts with
  | [] => Some s
  | a :: acts' => s' ← step a s; run acts' s'
  end.

(** ** [main]: start-up *)

(** Values the system calls of the start-up sequence return.
    [r_create i] is the result of the [pthread_create] for worker [i]. *)
Record setup_env := SetupEnv {
  r_setsockopt : Z;
  r_socket : Z;
  r_bind : Z;
  r_listen : Z;
  r_create : nat -> Z
}.

(** How [main] leaves its start-up code: the process state, and the exit
    status if [exit] was called. *)
Inductive main_result :=
| MainExit (status : Z) (s : system)
| MainListening (s : system).

(** The zero-initialised globals and an empty trace; [sockfd] is filled
    in by [socket]. *)
Definition process_start : system :=
  {| q_heap := ∅;
     queue := {| head := None; tail := None |};
     clients := {| client_fds := []; count := 0 |};
     sockfd := 0;
     workers := [];
     senders := [];
     trace := [] |}.

Definition set_sockfd (fd : Z) (s : system) : system :=
  {| q_heap := q_heap s; queue := queue s; clients := clients s;
     sockfd := fd; workers := workers s; senders := senders s;
     trace := trace s |}.

Definition start_worker (s : system) : system :=
  {| q_heap := q_heap s; queue := queue s; clients := clients s;
     sockfd := sockfd s; workers := workers s ++ [WDequeue];
     senders := senders s; trace := trace s |}.

(** The worker-creation loop of [main], at index [i] with [n] iterations
    left. *)
Fixpoint create_workers (e : setup_env) (i n : nat) (s : system) : main_result :=
  match n with
  | O => MainListening (emit [EvPrintf (LogListening PORT)] s)
  | S n' =>
      let r := r_create e i in
      if decide (r = 0) then
        create_workers e (S i) n' (emit [EvThreadCreate r] (start_worker s))
      else
        MainExit EXIT_FAILURE
          (emit [EvThreadCreate r; EvPerror "pthread_create failed";
                 EvClose (sockfd s); EvExit EXIT_FAILURE] s)
  end.

(** [main] up to the accept loop.  The result of [setsockopt] is not
    inspected by the source (line 243). *)
Definition main_setup (e : setup_env) : main_result :=
  let s0 := emit [EvSetsockopt (r_setsockopt e)] process_start in
  let s1 := set_queue ∅ init_queue s0 in
  let s2 := emit [EvSocket (r_socket e)] (set_sockfd (r_socket e) s1) in
  if decide (r_socket e < 0) then
    MainExit EXIT_FAILURE
      (emit [EvPerror "Failed to create socket"; EvExit EXIT_FAILURE] s2)
  else
    let s3 := emit [EvBind (sockfd s2) (r_bind e)] s2 in
    if decide (r_bind e < 0) then
      MainExit EXIT_FAILURE
        (emit [EvPerror "Failed to bind socket"; EvClose (sockfd s3);
               EvExit EXIT_FAILURE] s3)
    else
      let s4 := emit [EvListen (sockfd s3) (r_listen e)] s3 in
      if decide (r_listen e < 0) then
        MainExit EXIT_FAILURE
          (emit [EvPerror "Failed to listen for connections";
                 EvClose (sockfd s4); EvExit EXIT_FAILURE] s4)
      else
        create_workers e 0 NUM_WORKER_THREADS s4.

(** An environment in which every start-up call succeeds ([socket]
    returns descriptor 3), and one in which only [setsockopt] fails. *)
Definition env_ok : setup_env :=
  {| r_setsockopt := 0; r_socket := 3; r_bind := 0; r_listen := 0;
     r_create := fun _ => 0 |}.

Definition env_setsockopt_fails : setup_env :=
  {| r_setsockopt := -1; r_socket := 3; r_bind := 0; r_listen := 0;
     r_create := fun _ => 0 |}.

(** The [pthread_create] for the third worker fails. *)
Definition env_third_worker_fails : setup_env :=
  {| r_setsockopt := 0; r_socket := 3; r_bind := 0; r_listen := 0;
     r_create := fun i => if decide (i = 2%nat) then 11 else 0 |}.

(** ** Properties of traces *)

(** Number of [close(fd)] calls. *)
Definition close_count (fd : Z) (tr : list event) : nat :=
  length (filter (fun e => e = EvClose fd) tr).

(** [send] or [recv] on [fd]. *)
Definition uses_fd (fd : Z) (e : event) : bool :=
  match e with
  | EvSend fd' _ _ | EvRecv fd' _ => bool_decide (fd' = fd)
  | _ => false
  end.

(** Some [send] or [recv] on [fd] comes after a [close(fd)]. *)
Fixpoint use_after_close (fd : Z) (tr : list event) : bool :=
  match tr with
  | [] => false
  | e :: tr' =>
      (bool_decide (e = EvClose fd) && existsb (uses_fd fd) tr')
      || use_after_close fd tr'
  end.

(** A worker has taken [fd] off the queue and has not closed it yet. *)
Definition dispatched (s : system) (fd : Z) : Prop :=
  exists i, workers s !! i = Some (WAlloc fd)
         \/ workers s !! i = Some (WCreate fd)
         \/ workers s !! i = Some (WRecv fd)
         \/ workers s !! i = Some (WClose fd).

(** A worker is in the read loop of [fd]. *)
Definition servicing (s : system) (fd : Z) : Prop :=
  exists i, workers s !! i = Some (WRecv fd).

(** ** More readers of traces and schedules *)

(** The descriptors the workers took off the queue, in the order of their
    "processing connection" lines. *)
Definition dispatch_order (tr : list event) : list Z :=
  omap (fun e => match e with
                 | EvPrintf (LogProcessing fd) => Some fd
                 | _ => None
                 end) tr.

(** The descriptors the accept loop handed to [enqueue] with a node
    allocated, in the order of the [accept] calls. *)
Definition accepted_enqueued (acts : list action) : list Z :=
  omap (fun a => match a with
                 | AAccept r (Some _) => if decide (r < 0) then None else Some r
                 | _ => None
                 end) acts.

(** The descriptors passed to [close]. *)
Definition closed_fds (tr : list event) : list Z :=
  omap (fun e => match e with EvClose fd => Some fd | _ => None end) tr.


(** The messages passed to [send] on [fd]. *)
Definition sent_messages (fd : Z) (tr : list event) : list string :=
  omap (fun e => match e with
                 | EvSend fd' msg _ => if decide (fd' = fd) then Some msg else None
                 | _ => None
                 end) tr.

Definition is_exit (e : event) : bool :=
  match e with EvExit _ => true | _ => false end.

(** The worker is inside the read loop of some connection. *)
Definition in_read_loop (pc : worker_pc) : bool :=
  match pc with WRecv _ => true | _ => false end.


(** The state in which [main] enters its accept loop when every start-up
    call succeeded and [socket] returned [fd]. *)
Definition listening_state (e : setup_env) : system :=
  {| q_heap := ∅;
     queue := init_queue;
     clients := {| client_fds := []; count := 0 |};
     sockfd := r_socket e;
     workers := replicate NUM_WORKER_THREADS WDequeue;
     senders := [];
     trace := [EvSetsockopt (r_setsockopt e); EvSocket (r_socket e);
               EvBind (r_socket e) (r_bind e);
               EvListen (r_socket e) (r_listen e);
               EvThreadCreate 0; EvThreadCreate 0; EvThreadCreate 0;
               EvThreadCreate 0; EvPrintf (LogListening PORT)] |}.

(** Every start-up call that is checked succeeded. *)
Definition setup_succeeds (e : setup_env) : Prop :=
  0 <= r_socket e /\ 0 <= r_bind e /\ 0 <= r_listen e /\
  forall i, (i < NUM_WORKER_THREADS)%nat -> r_create e i = 0.

(** The descriptor a thread is working on, if any. *)
Definition worker_fd (pc : worker_pc) : option Z :=
  match pc with
  | WDequeue => None
  | WAlloc fd | WCreate fd | WRecv fd | WClose fd => Some fd
  end.

Definition sender_fd (pc : sender_pc) : option Z :=
  match pc with
  | SSend fd _ | SClose fd => Some fd
  | SExit => None
  end.

Global Instance worker_pc_eq_dec : EqDecision worker_pc.
Proof. solve_decision. Defined.

(** How often [fd] occurs in a list of descriptors. *)
Definition count_fd (fd : Z) (l : list Z) : nat :=
  length (filter (fun x => x = fd) l).

(** The [close(fd)] calls still ahead of the threads as they stand: one
    for every worker holding [fd], one for every sender holding it, and
    one for the sender a worker that has not passed [pthread_create] may
    yet start. *)
Definition pending_closes (fd : Z) (s : system) : nat :=
  (length (filter (fun pc => worker_fd pc = Some fd) (workers s))
   + length (filter (fun pc => pc = WAlloc fd) (workers s))
   + length (filter (fun pc => pc = WCreate fd) (workers s))
   + length (filter (fun pc => sender_fd pc = Some fd) (senders s)))%nat.

(** Closes so far plus closes still ahead never exceed two per dispatch. *)
Definition close_budget (fd : Z) (s : system) : Prop :=
  (close_count fd (trace s) + pending_closes fd s
   <= 2 * count_fd fd (dispatch_order (trace s)))%nat.

(** The events of a sender whose [send] calls return [rs], all without
    failing, starting at message number [c]. *)
Fixpoint sender_events (fd c : Z) (rs : list Z) : list event :=
  match rs with
  | [] => []
  | r :: rs' =>
      EvSend fd (test_message c) r :: EvPrintf (LogSent fd (test_message c))
        :: sender_events fd (c + 1) rs'
  end.


(** ** algo.c: frame processing

    A [uint8_t] is a [Z] in [0, 256), a [uint16_t] counter a [Z] in
    [0, 65536); an array argument is the list of its cells and [None]
    is the [NULL] pointer. *)

Definition FRAME_LEN_100 : Z := 100.
Definition FRAME_LEN_500 : Z := 500.
Definition SEARCH_BYTE : Z := 62.

Definition is_byte (b : Z) : Prop := 0 <= b < 256.

(** [count[b]++] on the [uint16_t] array [count]: the increment wraps
    at 65536. *)
Definition count_byte (cnt : list Z) (b : Z) : list Z :=
  <[Z.to_nat b := (cell cnt (Z.to_nat b) + 1) mod 65536]> cnt.

(** The counting loop of [process_byte_frame] (lines 49-51), entered at
    index [i] with [n] iterations left. *)
Fixpoint count_loop (data cnt : list Z) (i n : nat) : list Z :=
  match n with
  | O => cnt
  | S n' => count_loop data (count_byte cnt (cell data i)) (S i) n'
  end.

(** The collecting loop (lines 56-61): [len] is [*result_len]. *)
Fixpoint collect_loop (cnt result : list Z) (len : Z) (i n : nat)
  : list Z * Z :=
  match n with
  | O => (result, len)
  | S n' =>
      if decide (0 < cell cnt i) then
        collect_loop cnt (<[Z.to_nat len := Z.of_nat i]> result) (len + 1)
                     (S i) n'
      else collect_loop cnt result len (S i) n'
  end.

(** [process_byte_frame]: returns the status, the [result] array and
    [*result_len] as the call leaves them. *)
Definition process_byte_frame (data : option (list Z)) (data_len : Z)
    (result : option (list Z)) (result_len : option Z)
  : Z * option (list Z) * option Z :=
  match data, result, result_len with
  | Some d, Some res, Some _ =>
      let cnt := count_loop d (replicate 256 0) 0 (Z.to_nat data_len) in
      let '(res', len') := collect_loop cnt res 0 0 256 in
      (0, Some res', Some len')
  | _, _, _ => (-1, result, result_len)
  end.

(** The indices in [i, i + n) whose counter is not zero. *)
Definition nonzero_cells (cnt : list Z) (i n : nat) : list nat :=
  filter (fun k => 0 < cell cnt k) (seq i n).

(** How often [b] occurs in a frame. *)
Definition byte_count (b : Z) (l : list Z) : Z :=
  Z.of_nat (length (filter (fun x => x = b) l)).

(** The loop of [linear_search_for_byte] (lines 109-113), entered at
    index [i] with [n] iterations left. *)
Fixpoint linear_loop (data : list Z) (target : Z) (i n : nat) : Z :=
  match n with
  | O => -1
  | S n' =>
      if decide (cell data i = target) then Z.of_nat i
      else linear_loop data target (S i) n'
  end.

(** [linear_search_for_byte] *)
Definition linear_search_for_byte (data : option (list Z))
    (data_len target : Z) : Z :=
  match data with
  | None => -1
  | Some d =>
      if decide (data_len <= 0) then -1
      else linear_loop d target 0 (Z.to_nat data_len)
  end.

(** The loop of [binary_search_for_byte] (lines 81-92).  [fuel] bounds
    the number of iterations; [None] means the bound was reached before
    the loop ended.  [/] on [int] is [Z.quot]. *)
Fixpoint binary_loop (fuel : nat) (data : list Z) (target left right : Z)
  : option Z :=
  match fuel with
  | O => None
  | S fuel' =>
      if decide (left <= right) then
        let mid := left + (right - left) `quot` 2 in
        if decide (cell data (Z.to_nat mid) = target) then Some mid
        else if decide (cell data (Z.to_nat mid) < target) then
          binary_loop fuel' data target (mid + 1) right
        else binary_loop fuel' data target left (mid - 1)
      else Some (-1)
  end.

(** [binary_search_for_byte], with [data_len + 1] iterations allowed. *)
Definition binary_search_for_byte (data : option (list Z))
    (data_len target : Z) : option Z :=
  match data with
  | None => Some (-1)
  | Some d =>
      if decide (data_len <= 0) then Some (-1)
      else binary_loop (S (Z.to_nat data_len)) d target 0 (data_len - 1)
  end.

(** The sort in [main] of algo.c (lines 204-212).  One comparison of the
    inner loop at index [j]: *)
Definition swap_step (data : list Z) (j : nat) : list Z :=
  if decide (cell data j > cell data (S j)) then
    <[S j := cell data j]> (<[j := cell data (S j)]> data)
  else data.

(** the inner [for] loop, entered at [j] with [n] iterations left; *)
Fixpoint bubble_inner (data : list Z) (j n : nat) : list Z :=
  match n with
  | O => data
  | S n' => bubble_inner (swap_step data j) (S j) n'
  end.

(** the outer [for] loop over an array of [N] bytes, entered at [i] with
    [n] iterations left. *)
Fixpoint bubble_outer (data : list Z) (N i n : nat) : list Z :=
  match n with
  | O => data
  | S n' => bubble_outer (bubble_inner data 0 (N - i - 1)) N (S i) n'
  end.

Definition bubble_sort (data : list Z) (N : nat) : list Z :=
  bubble_outer data N 0 (N - 1).

(** The cells from index [N - i] on are in their final place: each is at
    least every cell before it. *)
Definition suffix_sorted (data : list Z) (N i : nat) : Prop :=
  forall a b, (a <= b)%nat -> (N - i <= b)%nat -> (b < N)%nat ->
              cell data a <= cell data b.

(* ===================================================================== *)
(** * Part II: properties                                                 *)
(* ===================================================================== *)

(** ** The client manager *)

Section registry.
Implicit Types (cm : client_manager_t) (fd : Z).

Lemma cell_lookup (a : list Z) (i : nat) (x : Z) :
  a !! i = Some x -> cell a i = x.
Proof. unfold cell. by intros ->. Qed.

Lemma cell_take (a : list Z) (i n : nat) :
  (i < n)%nat -> cell (take n a) i = cell a i.
Proof. intros Hi. unfold cell. by rewrite lookup_take_lt. Qed.

Lemma registered_fds_length cm :
  cm_wf cm -> length (registered_fds cm) = Z.to_nat (count cm).
Proof.
  intros [Hlen Hc]. unfold registered_fds, MAX_CLIENTS in *.
  rewrite length_take. lia.
Qed.

Lemma add_client_stores cm fd :
  cm_wf cm -> count cm < MAX_CLIENTS ->
  cm_wf (add_client cm fd).1 /\
  count (add_client cm fd).1 = count cm + 1 /\
  registered_fds (add_client cm fd).1 = registered_fds cm ++ [fd].
Proof.
  intros [Hlen Hc] Hlt. unfold add_client.
  destruct (decide (count cm < MAX_CLIENTS)) as [_|]; [|lia]. simpl.
  split; [|split; [done|]].
  - split; simpl; [by rewrite length_insert | lia].
  - unfold registered_fds; simpl.
    replace (Z.to_nat (count cm + 1)) with (S (Z.to_nat (count cm))) by lia.
    unfold MAX_CLIENTS in *.
    erewrite take_S_r; last by (apply list_lookup_insert_eq; lia).
    by rewrite take_insert_ge.
Qed.

Lemma add_client_full cm fd :
  MAX_CLIENTS <= count cm ->
  add_client cm fd = (cm, [EvPrintf LogMaxClients]).
Proof.
  intros Hfull. unfold add_client.
  destruct (decide (count cm < MAX_CLIENTS)); [lia | done].
Qed.

Lemma remove_client_loop_miss cm fd (n i : nat) :
  (forall k, (i <= k < i + n)%nat -> cell (client_fds cm) k <> fd) ->
  remove_client_loop cm fd i n = (cm, []).
Proof.
  revert i. induction n as [|n IH]; intros i Hmiss; simpl; [done|].
  destruct (decide (cell (client_fds cm) i = fd)) as [Heq|_].
  - exfalso. apply (Hmiss i); [lia | done].
  - apply IH. intros k Hk. apply Hmiss. lia.
Qed.

Lemma remove_client_loop_hit cm fd (n i k : nat) :
  (i <= k < i + n)%nat ->
  cell (client_fds cm) k = fd ->
  (forall k', (i <= k' < k)%nat -> cell (client_fds cm) k' <> fd) ->
  remove_client_loop cm fd i n =
    (removed_at cm k, [EvPrintf (LogClientRemoved fd (count cm - 1))]).
Proof.
  revert i. induction n as [|n IH]; intros i Hk Hhit Hfirst; simpl; [lia|].
  destruct (decide (cell (client_fds cm) i = fd)) as [Heq|Hne].
  - destruct (decide (i = k)) as [->|Hik]; [done|].
    exfalso. apply (Hfirst i); [lia | done].
  - destruct (decide (i = k)) as [->|Hik]; [done|].
    apply IH; [lia | done |]. intros k' Hk'. apply Hfirst. lia.
Qed.

Lemma not_registered_cells cm fd :
  cm_wf cm -> ~ registered cm fd ->
  forall k, (k < Z.to_nat (count cm))%nat -> cell (client_fds cm) k <> fd.
Proof.
  intros [Hlen Hc] Hnot k Hk Heq. apply Hnot.
  unfold registered, registered_fds, MAX_CLIENTS in *.
  destruct (lookup_lt_is_Some_2 (client_fds cm) k) as [x Hx]; [lia|].
  apply list_elem_of_lookup. exists k.
  rewrite lookup_take_lt; [|done].
  rewrite Hx. f_equal. rewrite <- Heq. symmetry. by apply cell_lookup.
Qed.

(** A handle that is not registered: [remove_client] changes nothing. *)
Lemma remove_client_miss cm fd :
  cm_wf cm -> ~ registered cm fd -> remove_client cm fd = (cm, []).
Proof.
  intros Hwf Hnot. apply remove_client_loop_miss.
  intros k Hk. apply not_registered_cells; [done | done | lia].
Qed.

Lemma swap_out_perm (m : list Z) (k : nat) (x v : Z) :
  m !! k = Some x -> x :: <[k := v]> m ≡ₚ v :: m.
Proof.
  intros Hk.
  rewrite (insert_take_drop m k v); last by eapply lookup_lt_Some.
  rewrite <- (take_drop_middle m k x Hk) at 3.
  rewrite <- !Permutation_middle. apply perm_swap.
Qed.

Lemma removed_at_perm cm fd (k : nat) :
  cm_wf cm -> (k < Z.to_nat (count cm))%nat ->
  client_fds cm !! k = Some fd ->
  fd :: registered_fds (removed_at cm k) ≡ₚ registered_fds cm.
Proof.
  intros [Hlen Hc] Hk Hfd. unfold registered_fds, removed_at; simpl.
  unfold MAX_CLIENTS in *.
  set (c := Z.to_nat (count cm - 1)).
  replace (Z.to_nat (count cm)) with (S c) in * by lia.
  destruct (lookup_lt_is_Some_2 (client_fds cm) c) as [v Hv]; [lia|].
  rewrite (cell_lookup _ _ _ Hv), (take_S_r _ _ _ Hv).
  destruct (decide (k = c)) as [->|Hne].
  - rewrite take_insert_ge; [|lia].
    assert (v = fd) as -> by congruence.
    apply Permutation_cons_append.
  - rewrite take_insert_lt; [|lia].
    rewrite swap_out_perm; last by (rewrite lookup_take_lt; [done | lia]).
    apply Permutation_cons_append.
Qed.

(** A registered handle: [remove_client] takes out exactly one
    occurrence and keeps the rest (in some order). *)
Lemma remove_client_hit cm fd :
  cm_wf cm -> registered cm fd ->
  cm_wf (remove_client cm fd).1 /\
  count (remove_client cm fd).1 = count cm - 1 /\
  fd :: registered_fds (remove_client cm fd).1 ≡ₚ registered_fds cm.
Proof.
  intros Hwf Hreg. pose proof Hwf as [Hlen Hc].
  destruct (list_find (fun x => x = fd) (registered_fds cm))
    as [[k x]|] eqn:Hfind.
  - apply list_find_Some in Hfind as (Hk & -> & Hfirst).
    pose proof (lookup_lt_Some _ _ _ Hk) as Hlt.
    rewrite registered_fds_length in Hlt by done.
    unfold registered_fds in Hk. rewrite lookup_take_lt in Hk by done.
    unfold remove_client.
    rewrite (remove_client_loop_hit cm fd _ 0 k); [simpl| lia | by apply cell_lookup |].
    + split; [|split; [done|by apply removed_at_perm]].
      split; simpl; [by rewrite length_insert | lia].
    + intros k' Hk' Heq. unfold MAX_CLIENTS in *.
      destruct (lookup_lt_is_Some_2 (client_fds cm) k') as [y Hy]; [lia|].
      apply (Hfirst k' y); [|lia|].
      * unfold registered_fds. rewrite lookup_take_lt; [done | lia].
      * rewrite <- Heq. symmetry. by apply cell_lookup.
  - exfalso. apply list_find_None in Hfind.
    rewrite Forall_forall in Hfind. by apply (Hfind fd).
Qed.

Lemma remove_client_wf cm fd : cm_wf cm -> cm_wf (remove_client cm fd).1.
Proof.
  intros Hwf. destruct (decide (registered cm fd)) as [Hreg|Hnot].
  - by apply remove_client_hit.
  - by rewrite remove_client_miss.
Qed.

Lemma add_client_wf cm fd : cm_wf cm -> cm_wf (add_client cm fd).1.
Proof.
  intros Hwf. destruct (decide (count cm < MAX_CLIENTS)) as [Hlt|Hge].
  - by apply add_client_stores.
  - rewrite add_client_full; [done | lia].
Qed.

Lemma apply_registry_op_wf cm op :
  cm_wf cm -> cm_wf (apply_registry_op cm op).1.
Proof.
  destruct op; simpl; auto using add_client_wf, remove_client_wf.
Qed.

Lemma run_registry_ops_wf ops cm :
  cm_wf cm -> cm_wf (run_registry_ops ops cm).
Proof.
  revert cm. induction ops as [|op ops IH]; intros cm Hwf; simpl; [done|].
  apply IH. by apply apply_registry_op_wf.
Qed.

End registry.

Section broadcast.
Implicit Types (cm : client_manager_t) (send_ret : nat -> Z).

Lemma cells_seq (a : list Z) (i n : nat) :
  (i + n <= length a)%nat -> cell a <$> seq i n = take n (drop i a).
Proof.
  revert i. induction n as [|n IH]; intros i Hlen; simpl; [done|].
  destruct (lookup_lt_is_Some_2 a i) as [x Hx]; [lia|].
  rewrite (cell_lookup _ _ _ Hx), IH by lia.
  rewrite (drop_S _ _ _ Hx). done.
Qed.

Lemma broadcast_loop_attempted cm data send_ret (n i : nat) :
  sends_attempted (broadcast_loop cm data send_ret i n)
  = cell (client_fds cm) <$> seq i n.
Proof.
  revert i. induction n as [|n IH]; intros i; simpl; [done|].
  unfold sends_attempted in *. simpl. rewrite omap_app, IH.
  by destruct (decide (send_ret i < 0)).
Qed.

Lemma sends_delivered_ok fd data r tr :
  0 <= r -> sends_delivered (EvSend fd data r :: tr) = fd :: sends_delivered tr.
Proof.
  intros Hr. unfold sends_delivered. simpl.
  destruct (decide (r < 0)); [lia | done].
Qed.

Lemma sends_delivered_failed fd data r msg tr :
  r < 0 ->
  sends_delivered (EvSend fd data r :: EvPerror msg :: tr) = sends_delivered tr.
Proof.
  intros Hr. unfold sends_delivered. simpl.
  destruct (decide (r < 0)); [done | lia].
Qed.

Lemma send_failures_logged_ok fd data r tr :
  send_failures_logged (EvSend fd data r :: tr) = send_failures_logged tr.
Proof. unfold send_failures_logged. by rewrite filter_cons_False. Qed.

Lemma send_failures_logged_failed tr :
  send_failures_logged (EvPerror "Failed to send data to client" :: tr)
  = S (send_failures_logged tr).
Proof. unfold send_failures_logged. by rewrite filter_cons_True. Qed.

Lemma broadcast_loop_all_delivered cm data send_ret (n i : nat) :
  (forall k, (i <= k < i + n)%nat -> 0 <= send_ret k) ->
  sends_delivered (broadcast_loop cm data send_ret i n)
    = cell (client_fds cm) <$> seq i n /\
  send_failures_logged (broadcast_loop cm data send_ret i n) = 0%nat.
Proof.
  revert i. induction n as [|n IH]; intros i Hok; [done|].
  destruct (IH (S i)) as [IHd IHf]; [intros k Hk; apply Hok; lia|].
  pose proof (Hok i ltac:(lia)) as Hi.
  cbn [broadcast_loop]. destruct (decide (send_ret i < 0)); [lia|].
  cbn [app]. rewrite sends_delivered_ok, send_failures_logged_ok by done.
  rewrite IHd, IHf. done.
Qed.

Lemma broadcast_loop_one_failure cm data send_ret (n i j : nat) :
  (i <= j < i + n)%nat ->
  send_ret j < 0 ->
  (forall k, (i <= k < i + n)%nat -> k <> j -> 0 <= send_ret k) ->
  sends_delivered (broadcast_loop cm data send_ret i n)
    = cell (client_fds cm) <$> (seq i (j - i) ++ seq (S j) (i + n - S j)) /\
  send_failures_logged (broadcast_loop cm data send_ret i n) = 1%nat.
Proof.
  revert i. induction n as [|n IH]; intros i Hj Hfail Hok; [lia|].
  cbn [broadcast_loop].
  destruct (decide (i = j)) as [->|Hne].
  - destruct (decide (send_ret j < 0)); [|lia]. cbn [app].
    destruct (broadcast_loop_all_delivered cm data send_ret n (S j))
      as [Hd Hf]; [intros k Hk; apply Hok; lia|].
    rewrite sends_delivered_failed by done.
    rewrite send_failures_logged_ok, send_failures_logged_failed.
    rewrite Hd, Hf.
    replace (j - j)%nat with 0%nat by lia.
    replace (j + S n - S j)%nat with n by lia. done.
  - pose proof (Hok i ltac:(lia) Hne) as Hi.
    destruct (decide (send_ret i < 0)); [lia|]. cbn [app].
    destruct (IH (S i)) as [IHd IHf];
      [lia | done | intros k Hk; apply Hok; lia |].
    rewrite sends_delivered_ok, send_failures_logged_ok by done.
    rewrite IHd, IHf.
    replace (j - i)%nat with (S (j - S i)) by lia.
    replace (i + S n - S j)%nat with (S i + n - S j)%nat by lia. done.
Qed.

Lemma send_calls_send fd data r tr :
  send_calls (EvSend fd data r :: tr) = (fd, data) :: send_calls tr.
Proof. done. Qed.

Lemma send_calls_perror msg tr :
  send_calls (EvPerror msg :: tr) = send_calls tr.
Proof. done. Qed.

Lemma sends_attempted_send fd data r tr :
  sends_attempted (EvSend fd data r :: tr) = fd :: sends_attempted tr.
Proof. done. Qed.

Lemma sends_attempted_perror msg tr :
  sends_attempted (EvPerror msg :: tr) = sends_attempted tr.
Proof. done. Qed.

Lemma deliveries_ok fd data r tr :
  0 <= r -> deliveries (EvSend fd data r :: tr) = (fd, data) :: deliveries tr.
Proof.
  intros Hr. unfold deliveries. simpl.
  destruct (decide (r < 0)); [lia | done].
Qed.

Lemma deliveries_failed fd data r msg tr :
  r < 0 ->
  deliveries (EvSend fd data r :: EvPerror msg :: tr) = deliveries tr.
Proof.
  intros Hr. unfold deliveries. simpl.
  destruct (decide (r < 0)); [done | lia].
Qed.

(** Every [send] of the loop is given the caller's buffer. *)
Lemma broadcast_loop_payload cm data send_ret (n i : nat) :
  send_calls (broadcast_loop cm data send_ret i n)
    = (fun fd => (fd, data))
        <$> sends_attempted (broadcast_loop cm data send_ret i n) /\
  deliveries (broadcast_loop cm data send_ret i n)
    = (fun fd => (fd, data))
        <$> sends_delivered (broadcast_loop cm data send_ret i n).
Proof.
  revert i. induction n as [|n IH]; intros i; [done|].
  destruct (IH (S i)) as [IHc IHd]. cbn [broadcast_loop].
  rewrite send_calls_send, sends_attempted_send.
  destruct (decide (send_ret i < 0)) as [Hr|Hr]; cbn [app].
  - rewrite send_calls_perror, sends_attempted_perror.
    rewrite deliveries_failed, sends_delivered_failed by done.
    by rewrite IHc, IHd.
  - rewrite deliveries_ok, sends_delivered_ok by lia.
    by rewrite IHc, IHd.
Qed.

Lemma broadcast_attempts_registered cm data send_ret :
  cm_wf cm ->
  sends_attempted (broadcast_to_clients cm data send_ret).2
    = registered_fds cm.
Proof.
  intros [Hlen Hc]. unfold broadcast_to_clients, MAX_CLIENTS in *. simpl.
  rewrite broadcast_loop_attempted, cells_seq by (simpl; lia). done.
Qed.

End broadcast.

(** ** Claims about the client manager *)

(** C4.  From an initialised registry, whatever sequence of [add_client],
    [remove_client] and [broadcast_to_clients] calls is applied, [count]
    stays between 0 and [MAX_CLIENTS] (100) and the array keeps its
    length; an operation that changes the registered handles is an add
    or a remove; and an add at [count = MAX_CLIENTS] is rejected with the
    manager (count and every stored fd) unchanged. *)
Theorem registry_size_bounded
    (cells : list Z) (ops : list registry_op)
    (cm0 : client_manager_t) (evs : list event) :
  length cells = Z.to_nat MAX_CLIENTS ->
  init_client_manager (Some cells) = (Ret cm0, evs) ->
  let cm := run_registry_ops ops cm0 in
  0 <= count cm <= MAX_CLIENTS /\
  length (client_fds cm) = Z.to_nat MAX_CLIENTS /\
  (forall op, registered_fds (apply_registry_op cm op).1 <> registered_fds cm ->
              exists fd, op = OpAdd fd \/ op = OpRemove fd) /\
  (forall fd, count cm = MAX_CLIENTS ->
              add_client cm fd = (cm, [EvPrintf LogMaxClients])).
Proof.
  intros Hlen Hinit cm. simpl in Hinit. injection Hinit as <- <-.
  assert (cm_wf cm) as [Hl Hc].
  { apply run_registry_ops_wf. split; simpl; [done | unfold MAX_CLIENTS; lia]. }
  split; [done|]. split; [done|]. split.
  - intros [fd|fd|data send_ret] Hchg; [eauto | eauto | by destruct Hchg].
  - intros fd Hfull. apply add_client_full. lia.
Qed.

Lemma registry_size_bounded_witness :
  let cm := run_registry_ops (replicate 101 (OpAdd 7) ++ [OpRemove 7; OpAdd 9])
              {| client_fds := replicate 100 0; count := 0 |} in
  0 <= count cm <= MAX_CLIENTS /\
  length (client_fds cm) = Z.to_nat MAX_CLIENTS /\
  (forall op, registered_fds (apply_registry_op cm op).1 <> registered_fds cm ->
              exists fd, op = OpAdd fd \/ op = OpRemove fd) /\
  (forall fd, count cm = MAX_CLIENTS ->
              add_client cm fd = (cm, [EvPrintf LogMaxClients])).
Proof.
  apply (registry_size_bounded (replicate 100 0) _ _ []); reflexivity.
Defined.

(** C6.  [broadcast_to_clients] calls [send] once for every registered
    handle, in registry order, each time with the caller's payload
    [data], and leaves the registry as it was.  A failing [send] is
    logged and the loop goes on: when the call for exactly one recipient
    [j] fails, each of the other [K - 1] registered handles has been sent
    the payload by a call that did not fail, and one failure is
    logged. *)
Theorem broadcast_best_effort
    (cm : client_manager_t) (data : string) (send_ret : nat -> Z) :
  cm_wf cm ->
  let K := Z.to_nat (count cm) in
  let tr := (broadcast_to_clients cm data send_ret).2 in
  (broadcast_to_clients cm data send_ret).1 = cm /\
  sends_attempted tr = registered_fds cm /\
  length (sends_attempted tr) = K /\
  send_calls tr = (fun fd => (fd, data)) <$> registered_fds cm /\
  forall j : nat,
    (j < K)%nat ->
    send_ret j < 0 ->
    (forall k : nat, (k < K)%nat -> k <> j -> 0 <= send_ret k) ->
    sends_delivered tr = delete j (registered_fds cm) /\
    length (sends_delivered tr) = (K - 1)%nat /\
    deliveries tr = (fun fd => (fd, data)) <$> delete j (registered_fds cm) /\
    send_failures_logged tr = 1%nat.
Proof.
  intros Hwf K tr. pose proof Hwf as [Hlen Hc].
  destruct (broadcast_loop_payload cm data send_ret K 0) as [Hcalls Hdeliv].
  change (broadcast_loop cm data send_ret 0 K) with tr in Hcalls, Hdeliv.
  split; [done|]. split; [by apply broadcast_attempts_registered|].
  split.
  { unfold tr. rewrite broadcast_attempts_registered by done.
    by apply registered_fds_length. }
  split.
  { rewrite Hcalls. unfold tr.
    by rewrite broadcast_attempts_registered by done. }
  intros j Hj Hfail Hok. rewrite Hdeliv. clear Hcalls Hdeliv.
  destruct (broadcast_loop_one_failure cm data send_ret K 0 j) as [Hd Hf];
    [lia | done | intros k Hk; apply Hok; lia |].
  unfold tr, broadcast_to_clients. simpl. fold K.
  rewrite Hf, Hd. clear Hd Hf.
  assert (cell (client_fds cm) <$> (seq 0 (j - 0) ++ seq (S j) (0 + K - S j))
          = delete j (registered_fds cm)) as ->.
  { unfold MAX_CLIENTS in *.
    rewrite fmap_app, !cells_seq by (unfold K in *; lia).
    rewrite delete_take_drop. unfold registered_fds. fold K.
    rewrite take_take, skipn_firstn_comm. simpl.
    replace (j - 0)%nat with j by lia.
    replace (j `min` K)%nat with j by lia. done. }
  split; [done|]. split; [|done].
  rewrite length_delete; [| apply lookup_lt_is_Some_2;
                            rewrite registered_fds_length by done; done].
  rewrite registered_fds_length by done. done.
Qed.

Lemma broadcast_best_effort_witness :
  let cm := {| client_fds := [4; 5; 6] ++ replicate 97 0; count := 3 |} in
  let send_ret := fun i : nat => if decide (i = 1%nat) then -1 else 5 in
  let tr := (broadcast_to_clients cm "hello" send_ret).2 in
  sends_attempted tr = [4; 5; 6] /\ sends_delivered tr = [4; 6] /\
  send_calls tr = [(4, "hello"); (5, "hello"); (6, "hello")]%string /\
  deliveries tr = [(4, "hello"); (6, "hello")]%string.
Proof.
  intros cm send_ret tr.
  assert (cm_wf cm) as Hwf by (split; [reflexivity | simpl; unfold MAX_CLIENTS; lia]).
  destruct (broadcast_best_effort cm "hello" send_ret Hwf)
    as (_ & Hatt & _ & Hcalls & Hone).
  split; [exact Hatt|].
  destruct (Hone 1%nat) as (Hd & _ & Hdel & _).
  - unfold cm. simpl. lia.
  - unfold send_ret. simpl. lia.
  - intros k _ Hk. unfold send_ret. destruct (decide (k = 1%nat)); [done | lia].
  - exact (conj Hd (conj Hcalls Hdel)).
Defined.

Lemma occurrences_zero_not_registered (cm : client_manager_t) (fd : Z) :
  occurrences cm fd = 0%nat -> ~ registered cm fd.
Proof.
  unfold occurrences, registered. intros Hz Hin.
  apply nil_length_inv in Hz.
  assert (fd ∈ filter (fun x => x = fd) (registered_fds cm)) as Hf
    by (by apply list_elem_of_filter).
  rewrite Hz in Hf. by apply not_elem_of_nil in Hf.
Qed.

Lemma occurrences_pos_registered (cm : client_manager_t) (fd : Z) :
  (0 < occurrences cm fd)%nat -> registered cm fd.
Proof.
  unfold occurrences, registered. intros Hpos.
  destruct (filter (fun x => x = fd) (registered_fds cm)) as [|x l] eqn:Hf;
    [simpl in Hpos; lia|].
  assert (x ∈ filter (fun x => x = fd) (registered_fds cm)) as Hx
    by (rewrite Hf; apply list_elem_of_here).
  apply list_elem_of_filter in Hx as [-> Hx]. done.
Qed.

Lemma occurrences_remove_client (cm : client_manager_t) (fd : Z) :
  cm_wf cm -> registered cm fd ->
  occurrences cm fd = S (occurrences (remove_client cm fd).1 fd).
Proof.
  intros Hwf Hreg. destruct (remove_client_hit cm fd Hwf Hreg) as (_ & _ & Hp).
  unfold occurrences. rewrite <- Hp. by rewrite filter_cons_True.
Qed.

Lemma occurrences_snoc (l : list Z) (fd : Z) :
  length (filter (fun x => x = fd) (l ++ [fd]))
  = S (length (filter (fun x => x = fd) l)).
Proof.
  rewrite filter_app, length_app, filter_cons_True by done. simpl. lia.
Qed.

(** C9.  [remove_client] removes one stored copy of the handle when it is
    registered, and is a no-op when it is not: the manager comes back
    unchanged and nothing is printed.  Hence, for a handle stored at most
    once, removing it a second time changes nothing. *)
Theorem remove_client_idempotent (cm : client_manager_t) (fd : Z) :
  cm_wf cm ->
  (~ registered cm fd -> remove_client cm fd = (cm, [])) /\
  (registered cm fd ->
     count (remove_client cm fd).1 = count cm - 1 /\
     fd :: registered_fds (remove_client cm fd).1 ≡ₚ registered_fds cm) /\
  ((occurrences cm fd <= 1)%nat ->
     ~ registered (remove_client cm fd).1 fd /\
     remove_client (remove_client cm fd).1 fd = ((remove_client cm fd).1, [])).
Proof.
  intros Hwf. split; [by apply remove_client_miss|]. split.
  - intros Hreg. by apply remove_client_hit.
  - intros Honce.
    assert (~ registered (remove_client cm fd).1 fd) as Hgone.
    { destruct (decide (registered cm fd)) as [Hreg|Hnot].
      - apply occurrences_zero_not_registered.
        pose proof (occurrences_remove_client cm fd Hwf Hreg). lia.
      - by rewrite remove_client_miss. }
    split; [done|].
    apply remove_client_miss; [by apply remove_client_wf | done].
Qed.

Lemma remove_client_idempotent_witness :
  let cm := {| client_fds := [4; 5; 6] ++ replicate 97 0; count := 3 |} in
  remove_client cm 8 = (cm, []) /\
  registered_fds (remove_client cm 4).1 = [6; 5] /\
  remove_client (remove_client cm 4).1 4 = ((remove_client cm 4).1, []).
Proof.
  intros cm.
  assert (cm_wf cm) as Hwf
    by (split; [reflexivity | simpl; unfold MAX_CLIENTS; lia]).
  split; [|split].
  - destruct (remove_client_idempotent cm 8 Hwf) as (Hmiss & _ & _).
    apply Hmiss.
    apply (bool_decide_eq_false_1 (registered cm 8)). reflexivity.
  - reflexivity.
  - destruct (remove_client_idempotent cm 4 Hwf) as (_ & _ & Htwice).
    apply Htwice. vm_compute. lia.
Defined.

(** C10.  The registry is a multiset: [add_client] makes no membership
    test, so adding the same [fd] twice (while two cells are free) stores
    it twice and raises [count] by two; [broadcast_to_clients] then calls
    [send] on that [fd] once per stored copy; and one [remove_client]
    takes out a single copy, leaving [fd] registered. *)
Theorem registry_is_multiset (cm : client_manager_t) (fd : Z) :
  cm_wf cm ->
  count cm + 2 <= MAX_CLIENTS ->
  let cm2 := (add_client (add_client cm fd).1 fd).1 in
  let cm3 := (remove_client cm2 fd).1 in
  count cm2 = count cm + 2 /\
  registered_fds cm2 = registered_fds cm ++ [fd; fd] /\
  occurrences cm2 fd = (occurrences cm fd + 2)%nat /\
  (forall data send_ret,
     sends_attempted (broadcast_to_clients cm2 data send_ret).2
     = registered_fds cm ++ [fd; fd]) /\
  count cm3 = count cm + 1 /\
  occurrences cm3 fd = (occurrences cm fd + 1)%nat /\
  registered cm3 fd.
Proof.
  intros Hwf Hroom cm2 cm3.
  destruct (add_client_stores cm fd Hwf) as (Hwf1 & Hc1 & Hr1); [lia|].
  destruct (add_client_stores (add_client cm fd).1 fd Hwf1)
    as (Hwf2 & Hc2 & Hr2); [lia|].
  fold cm2 in Hwf2, Hc2, Hr2.
  assert (registered_fds cm2 = registered_fds cm ++ [fd; fd]) as Hregs.
  { rewrite Hr2, Hr1, <- app_assoc. done. }
  assert (occurrences cm2 fd = (occurrences cm fd + 2)%nat) as Hocc2.
  { unfold occurrences. rewrite Hr2, Hr1, !occurrences_snoc. lia. }
  assert (registered cm2 fd) as Hin2.
  { unfold registered. rewrite Hregs. set_solver. }
  destruct (remove_client_hit cm2 fd Hwf2 Hin2) as (Hwf3 & Hc3 & _).
  pose proof (occurrences_remove_client cm2 fd Hwf2 Hin2) as Hocc3.
  fold cm3 in Hwf3, Hc3, Hocc3.
  assert (occurrences cm3 fd = (occurrences cm fd + 1)%nat) as Hocc3' by lia.
  repeat split; [lia | done | done | | lia | done |].
  - intros data send_ret.
    rewrite broadcast_attempts_registered by done. done.
  - apply occurrences_pos_registered. lia.
Qed.

Lemma registry_is_multiset_witness :
  let cm0 := {| client_fds := replicate 100 0; count := 0 |} in
  let cm2 := (add_client (add_client cm0 7).1 7).1 in
  let cm3 := (remove_client cm2 7).1 in
  count cm2 = 2 /\ registered_fds cm2 = [7; 7] /\
  sends_attempted (broadcast_to_clients cm2 "x" (fun _ => 1)).2 = [7; 7] /\
  count cm3 = 1 /\ registered cm3 7.
Proof.
  intros cm0 cm2 cm3.
  assert (cm_wf cm0) as Hwf
    by (split; [reflexivity | simpl; unfold MAX_CLIENTS; lia]).
  assert (count cm0 + 2 <= MAX_CLIENTS) as Hroom
    by (simpl; unfold MAX_CLIENTS; lia).
  destruct (registry_is_multiset cm0 7 Hwf Hroom)
    as (Hc2 & Hr2 & _ & Hb & Hc3 & _ & Hin).
  exact (conj Hc2 (conj Hr2 (conj (Hb "x" (fun _ => 1)) (conj Hc3 Hin)))).
Defined.

(** ** The connection queue *)

Section queue.
Implicit Types (h : node_heap) (q : conn_queue_t) (ns : list (addr * Z)).

(** A chain only depends on the cells it passes through. *)
Lemma chain_frame h h' p ns :
  chain h p ns ->
  (forall a, a ∈ ns.*1 -> h' !! a = h !! a) ->
  chain h' p ns.
Proof.
  revert p. induction ns as [|[a fd] ns IH]; intros p Hch Hsame; [done|].
  destruct Hch as (-> & nx & Ha & Hrest). split; [done|].
  exists nx. split.
  - rewrite Hsame; [done | simpl; apply list_elem_of_here].
  - apply IH; [done|]. intros b Hb. apply Hsame. simpl.
    by apply list_elem_of_further.
Qed.

Lemma chain_last_node h p ns t fdt :
  chain h p (ns ++ [(t, fdt)]) ->
  h !! t = Some {| connfd := fdt; next := None |}.
Proof.
  revert p. induction ns as [|[a fd] ns IH]; intros p Hch.
  - destruct Hch as (_ & nx & Ht & Hnil). simpl in Hnil. by subst nx.
  - destruct Hch as (_ & nx & _ & Hrest). by eapply IH.
Qed.

Lemma chain_snoc h h' p ns t fdt a fd :
  chain h p (ns ++ [(t, fdt)]) ->
  (forall x, x ∈ ns.*1 -> h' !! x = h !! x) ->
  h' !! t = Some {| connfd := fdt; next := Some a |} ->
  h' !! a = Some {| connfd := fd; next := None |} ->
  chain h' p (ns ++ [(t, fdt); (a, fd)]).
Proof.
  revert p. induction ns as [|[x fdx] ns IH]; intros p Hch Hsame Ht Ha.
  - destruct Hch as (-> & _). simpl. split; [done|].
    exists (Some a). split; [done|]. split; [done|]. by exists None.
  - destruct Hch as (-> & nx & Hx & Hrest). simpl. split; [done|].
    exists nx. split.
    + rewrite Hsame; [done | simpl; apply list_elem_of_here].
    + apply IH; [done | | done | done].
      intros y Hy. apply Hsame. simpl. by apply list_elem_of_further.
Qed.

Lemma chain_addrs_live h p ns a :
  chain h p ns -> a ∈ ns.*1 -> is_Some (h !! a).
Proof.
  revert p. induction ns as [|[x fdx] ns IH]; intros p Hch Hin.
  - by apply not_elem_of_nil in Hin.
  - destruct Hch as (_ & nx & Hx & Hrest). simpl in Hin.
    apply elem_of_cons in Hin as [->|Hin]; [by eexists | by eapply IH].
Qed.

Lemma last_fst_snoc ns a fd : last (ns ++ [(a, fd)]).*1 = Some a.
Proof. rewrite fmap_app. apply last_snoc. Qed.

Lemma queue_inv_init : queue_inv ∅ init_queue [].
Proof. split; [done|]. split; [done|]. split; [constructor | set_solver]. Qed.

(** [enqueue] with a fresh node appends at the tail. *)
Lemma enqueue_inv h q ns fd a :
  queue_inv h q ns -> h !! a = None ->
  exists h' q',
    enqueue h q fd (Some a) = ((h', q'), [EvCondSignal]) /\
    queue_inv h' q' (ns ++ [(a, fd)]).
Proof.
  intros (Hch & Htl & Hnd & Hdom) Hfresh.
  assert (a ∉ ns.*1) as Hnew.
  { intros Hin. destruct (chain_addrs_live h _ ns a Hch Hin) as [? ?].
    congruence. }
  unfold enqueue.
  destruct ns as [|n0 ns0 _] using rev_ind.
  - simpl in Htl, Hch. rewrite Htl. eexists _, _. split; [done|].
    split; [|split; [done|split]].
    + simpl. split; [done|]. exists None.
      by rewrite lookup_insert_eq.
    + simpl. apply NoDup_singleton.
    + rewrite dom_insert_L, Hdom. simpl. set_solver.
  - destruct n0 as [t fdt].
    rewrite fmap_app in Htl, Hnd, Hdom, Hnew. simpl in Htl, Hnd, Hdom, Hnew.
    rewrite last_snoc in Htl. rewrite Htl.
    pose proof (chain_last_node _ _ _ _ _ Hch) as Ht.
    assert (t <> a) as Hta by (intros ->; congruence).
    apply NoDup_app in Hnd as (Hnd0 & Hnt & _).
    eexists _, _. split; [done|].
    split; [|split; [|split]].
    + rewrite <- app_assoc. simpl.
      eapply chain_snoc; [exact Hch | | |].
      * intros x Hx. rewrite lookup_alter_ne, lookup_insert_ne; [done | |].
        -- intros ->. apply Hnew. apply elem_of_app. by left.
        -- intros ->. apply (Hnt x); [done | apply list_elem_of_here].
      * by rewrite lookup_alter_eq, lookup_insert_ne, Ht.
      * by rewrite lookup_alter_ne, lookup_insert_eq.
    + simpl. symmetry. apply last_fst_snoc.
    + rewrite !fmap_app. simpl. apply NoDup_app. split; [|split].
      * apply NoDup_app. split; [done|]. split; [done | apply NoDup_singleton].
      * intros x Hx Hxa. apply list_elem_of_singleton in Hxa as ->.
        by apply Hnew.
      * apply NoDup_singleton.
    + rewrite dom_alter_L, dom_insert_L, Hdom, !fmap_app. simpl.
      rewrite (list_to_set_app_L (ns0.*1 ++ [t]) [a]). simpl.
      by rewrite union_empty_r_L, (comm_L (∪)).
Qed.

Lemma dequeue_empty h q : queue_inv h q [] -> dequeue h q = DeqWait.
Proof. intros (Hch & _). simpl in Hch. unfold dequeue. by rewrite Hch. Qed.

(** [dequeue] on a non-empty queue returns the head and frees its node. *)
Lemma dequeue_inv h q a fd ns :
  queue_inv h q ((a, fd) :: ns) ->
  exists q', dequeue h q = DeqRet fd (delete a h) q' /\
             queue_inv (delete a h) q' ns.
Proof.
  intros (Hch & Htl & Hnd & Hdom).
  destruct Hch as (Hhd & nx & Ha & Hrest).
  simpl in Hnd. apply NoDup_cons in Hnd as [Hnotin Hnd].
  unfold dequeue. rewrite Hhd, Ha. simpl. eexists. split; [done|].
  split; [|split; [|split]]; simpl.
  - apply (chain_frame h); [done|].
    intros b Hb. apply lookup_delete_ne. by intros ->.
  - destruct ns as [|[b fdb] ns].
    + simpl in Hrest. by subst nx.
    + destruct Hrest as (-> & _). by rewrite Htl.
  - done.
  - rewrite dom_delete_L, Hdom. simpl.
    rewrite difference_union_distr_l_L, difference_diag_L, union_empty_l_L.
    apply difference_disjoint_L, disjoint_singleton_r.
    by rewrite elem_of_list_to_set.
Qed.

Lemma walk_chain h p ns (fuel : nat) :
  chain h p ns -> (length ns <= fuel)%nat -> walk fuel h p = ns.*2.
Proof.
  revert p ns. induction fuel as [|fuel IH]; intros p ns Hch Hlen.
  - destruct ns; [|simpl in Hlen; lia]. by destruct p.
  - destruct ns as [|[a fd] ns].
    + simpl in Hch. by subst p.
    + destruct Hch as (-> & nx & Ha & Hrest). simpl. rewrite Ha. simpl.
      f_equal. apply IH; [done | simpl in Hlen; lia].
Qed.

(** Under the invariant the traversal reads off the queued handles. *)
Lemma queue_contents_inv h q ns :
  queue_inv h q ns -> queue_contents h q = ns.*2.
Proof.
  intros (Hch & _ & Hnd & Hdom). unfold queue_contents.
  apply walk_chain; [done|].
  rewrite <- (size_dom (D := gset addr) h), Hdom, size_list_to_set by done.
  by rewrite length_fmap.
Qed.

Lemma run_queue_ops_inv ops h q ns h' q' outs :
  queue_inv h q ns ->
  run_queue_ops ops h q = Some (h', q', outs) ->
  exists ns', queue_inv h' q' ns' /\
              outs ++ ns'.*2 = ns.*2 ++ enqueued ops.
Proof.
  revert h q ns outs.
  induction ops as [|[fd node|] ops IH]; intros h q ns outs Hinv Hrun.
  - simpl in Hrun. injection Hrun as <- <- <-. exists ns. split; [done|].
    unfold enqueued. simpl. by rewrite app_nil_r.
  - cbn [run_queue_ops] in Hrun.
    destruct (malloc_ok h node) eqn:Hfresh; [|done].
    destruct node as [a|].
    + apply bool_decide_eq_true in Hfresh.
      destruct (enqueue_inv h q ns fd a Hinv Hfresh) as (h1 & q1 & He & Hinv1).
      rewrite He in Hrun.
      destruct (IH _ _ _ _ Hinv1 Hrun) as (ns' & Hinv' & Hout).
      exists ns'. split; [done|]. rewrite Hout, fmap_app, <- app_assoc. done.
    + cbn [enqueue] in Hrun. by apply (IH _ _ _ _ Hinv Hrun).
  - cbn [run_queue_ops] in Hrun. destruct ns as [|[a fd] ns].
    + rewrite (dequeue_empty _ _ Hinv) in Hrun.
      by apply (IH _ _ _ _ Hinv Hrun).
    + destruct (dequeue_inv _ _ _ _ _ Hinv) as (q1 & Hd & Hinv1).
      rewrite Hd in Hrun.
      destruct (run_queue_ops ops (delete a h) q1) as [[[h2 q2] outs2]|] eqn:Hr;
        [|done].
      simpl in Hrun. injection Hrun as <- <- <-.
      destruct (IH _ _ _ _ Hinv1 Hr) as (ns' & Hinv' & Hout).
      exists ns'. split; [done|]. simpl. by rewrite Hout.
Qed.

End queue.



Lemma run_queue_ops_defined
    (ops : list queue_op) (h : node_heap) (q : conn_queue_t)
    (ns : list (addr * Z)) :
  queue_inv h q ns ->
  NoDup (alloc_addrs ops) ->
  (forall a, a ∈ alloc_addrs ops -> h !! a = None) ->
  is_Some (run_queue_ops ops h q).
Proof.
  revert h q ns.
  induction ops as [|[fd [a|]|] ops IH]; intros h q ns Hinv Hnd Hfresh.
  - by eexists.
  - cbn [run_queue_ops]. unfold alloc_addrs in Hnd, Hfresh. simpl in Hnd, Hfresh.
    apply NoDup_cons in Hnd as [Ha Hnd].
    assert (h !! a = None) as Hnone by (apply Hfresh, list_elem_of_here).
    unfold malloc_ok. rewrite bool_decide_eq_true_2 by done.
    destruct (enqueue_inv h q ns fd a Hinv Hnone) as (h1 & q1 & -> & Hinv1).
    apply (IH _ _ _ Hinv1 Hnd).
    intros b Hb. apply not_elem_of_dom.
    destruct Hinv1 as (_ & _ & _ & ->). destruct Hinv as (_ & _ & _ & Hdom).
    rewrite fmap_app, elem_of_list_to_set, elem_of_app. simpl.
    intros [Hin|Hin%list_elem_of_singleton].
    + assert (b ∈ dom h) as Hd by (by rewrite Hdom, elem_of_list_to_set).
      apply elem_of_dom in Hd as [? Hd].
      rewrite Hfresh in Hd; [done | by apply list_elem_of_further].
    + subst b. by apply Ha.
  - cbn [run_queue_ops malloc_ok enqueue]. by apply (IH _ _ ns).
  - cbn [run_queue_ops]. destruct ns as [|[a fd] ns].
    + rewrite (dequeue_empty _ _ Hinv). by apply (IH _ _ []).
    + destruct (dequeue_inv _ _ _ _ _ Hinv) as (q1 & -> & Hinv1).
      destruct (IH (delete a h) q1 ns Hinv1 Hnd) as [[[h2 q2] outs] ->].
      * intros b Hb. rewrite lookup_delete_None. right. by apply Hfresh.
      * by eexists.
Qed.

(** C8.  [enqueue] has no waiting outcome: it returns on every input.
    When [malloc] fails it prints its diagnostic and returns with heap
    and queue exactly as they were; the accept loop then goes on with the
    accepted descriptor neither queued nor closed.  When [malloc]
    succeeds the handle is appended at the tail and the condition
    variable is signalled. *)
Theorem enqueue_succeeds_unless_alloc_fails :
  (forall h q fd,
     enqueue h q fd None
     = ((h, q), [EvPerror "Failed to allocate memory for connection node"])) /\
  (forall s r,
     0 <= r ->
     q_heap (accept_step r None s) = q_heap s /\
     queue (accept_step r None s) = queue s /\
     trace (accept_step r None s)
     = trace s ++ [EvAccept r; EvPrintf LogAccepted;
                   EvPerror "Failed to allocate memory for connection node"]) /\
  (forall h q ns fd a,
     queue_inv h q ns -> h !! a = None ->
     exists h' q',
       enqueue h q fd (Some a) = ((h', q'), [EvCondSignal]) /\
       queue_inv h' q' (ns ++ [(a, fd)]) /\
       queue_contents h' q' = queue_contents h q ++ [fd]).
Proof.
  split; [done|]. split.
  - intros s r Hr. unfold accept_step.
    destruct (decide (r < 0)); [lia|]. done.
  - intros h q ns fd a Hinv Hfresh.
    destruct (enqueue_inv h q ns fd a Hinv Hfresh) as (h' & q' & He & Hinv').
    exists h', q'. split; [done|]. split; [done|].
    rewrite (queue_contents_inv _ _ _ Hinv), (queue_contents_inv _ _ _ Hinv').
    by rewrite fmap_app.
Qed.

Lemma enqueue_succeeds_unless_alloc_fails_witness :
  exists h' q',
    enqueue ∅ init_queue 7 (Some 1%positive) = ((h', q'), [EvCondSignal]) /\
    queue_inv h' q' [(1%positive, 7)] /\
    queue_contents h' q' = [7].
Proof.
  destruct enqueue_succeeds_unless_alloc_fails as (_ & _ & Hok).
  exact (Hok ∅ init_queue [] 7 1%positive queue_inv_init eq_refl).
Defined.

(** ** The running server *)

Section server.
Implicit Types (s : system) (a : action).

(** No transition of the listener, of a worker or of a sender writes
    the client manager: the source calls none of [add_client],
    [remove_client], [broadcast_to_clients], [init_client_manager]. *)
Lemma step_clients a s s' : step a s = Some s' -> clients s' = clients s.
Proof.
  destruct a as [r node|i r|j r]; unfold step; intros Hstep.
  - destruct (malloc_ok (q_heap s) node); [|done].
    injection Hstep as <-. unfold accept_step.
    destruct (decide (r < 0)); [done|].
    by destruct (enqueue (q_heap s) (queue s) r node) as [[h q] evs].
  - destruct (workers s !! i) as [pc|]; [|done]. simpl in Hstep.
    destruct pc as [|fd|fd|fd|fd]; simpl in Hstep.
    + destruct (dequeue (q_heap s) (queue s)); simpl in Hstep; [|done|done].
      by injection Hstep as <-.
    + destruct (decide (r = 0)); simpl in Hstep; [done|].
      by injection Hstep as <-.
    + destruct (decide (r = 0)); by injection Hstep as <-.
    + destruct (decide (0 < r)); [by injection Hstep as <-|].
      destruct (decide (r < 0)); by injection Hstep as <-.
    + by injection Hstep as <-.
  - destruct (senders s !! j) as [pc|]; [|done]. simpl in Hstep.
    destruct pc as [fd c|fd|]; simpl in Hstep; [| |done].
    + destruct (decide (r < 0)); by injection Hstep as <-.
    + by injection Hstep as <-.
Qed.

Lemma run_clients acts s s' : run acts s = Some s' -> clients s' = clients s.
Proof.
  revert s. induction acts as [|a acts IH]; intros s Hrun; simpl in Hrun.
  - by injection Hrun as <-.
  - destruct (step a s) as [s1|] eqn:Hs; [|done]. simpl in Hrun.
    rewrite (IH _ Hrun). by apply (step_clients a).
Qed.

Lemma create_workers_clients e (n i : nat) s s' :
  create_workers e i n s = MainListening s' -> clients s' = clients s.
Proof.
  revert i s. induction n as [|n IH]; intros i s Hcw; simpl in Hcw.
  - by injection Hcw as <-.
  - destruct (decide (r_create e i = 0)); [|done].
    by rewrite (IH _ _ Hcw).
Qed.

Lemma main_setup_clients e s :
  main_setup e = MainListening s ->
  clients s = {| client_fds := []; count := 0 |}.
Proof.
  unfold main_setup. intros Hm.
  destruct (decide (r_socket e < 0)); [done|].
  destruct (decide (r_bind e < 0)); [done|].
  destruct (decide (r_listen e < 0)); [done|].
  by rewrite (create_workers_clients _ _ _ _ _ Hm).
Qed.

(** A failing [socket], [bind] or [listen] ends the process with
    [EXIT_FAILURE] before any worker thread exists. *)
Lemma main_setup_failure_fatal e :
  r_socket e < 0 \/ r_bind e < 0 \/ r_listen e < 0 ->
  exists s, main_setup e = MainExit EXIT_FAILURE s /\
            workers s = [] /\
            last (trace s) = Some (EvExit EXIT_FAILURE).
Proof.
  intros Hfail. unfold main_setup.
  destruct (decide (r_socket e < 0)); [by eexists|].
  destruct (decide (r_bind e < 0)); [by eexists|].
  destruct (decide (r_listen e < 0)); [by eexists|]. lia.
Qed.

(** A failing [accept] is reported and the loop goes on: the iteration
    is a transition of the running server, which touches neither the
    queue nor the threads and records no [exit]. *)
Lemma accept_failure_not_fatal s r node :
  r < 0 ->
  accept_step r node s
  = emit [EvAccept r; EvPerror "Failed to accept connection"] s.
Proof. intros Hr. unfold accept_step. by destruct (decide (r < 0)). Qed.

End server.

(** C1 (the source does not do this).  The claim is that a connection's
    socket is closed once, after both loops have ended.  In the source
    both [sender_thread] (line 189) and [worker_thread] (line 228) call
    [close(connfd)].  One connection (descriptor 4) is accepted; its
    sender's [send] fails and the sender closes the socket; then the
    worker's [recv] returns 0 and the worker closes it again.  In a
    second schedule the worker closes first and the sender, still in its
    loop, calls [send] on the closed descriptor. *)
Theorem socket_closed_twice :
  exists s0 s1 s2,
    main_setup env_ok = MainListening s0 /\
    run [AAccept 4 (Some 1%positive); AWorker 0 0; AWorker 0 1; AWorker 0 0;
         ASender 0 (-1); ASender 0 0; AWorker 0 0; AWorker 0 0] s0 = Some s1 /\
    close_count 4 (trace s1) = 2%nat /\
    run [AAccept 4 (Some 1%positive); AWorker 0 0; AWorker 0 1; AWorker 0 0;
         AWorker 0 0; AWorker 0 0; ASender 0 (-1)] s0 = Some s2 /\
    use_after_close 4 (trace s2) = true.
Proof.
  eexists _, _, _.
  split; [vm_compute; reflexivity|].
  split; [vm_compute; reflexivity|].
  split; [vm_compute; reflexivity|].
  split; vm_compute; reflexivity.
Qed.

(** C2 as stated fails: a worker that has dequeued descriptor 4 and sits
    in its read loop has not registered it. *)
Lemma dispatched_registered_counterexample :
  ~ (forall e s0 acts s fd,
       main_setup e = MainListening s0 ->
       run acts s0 = Some s ->
       dispatched s fd -> registered (clients s) fd).
Proof.
  intros Hclaim.
  destruct (main_setup env_ok) as [|s0] eqn:Hm; [vm_compute in Hm; done|].
  destruct (run [AAccept 4 (Some 1%positive); AWorker 0 0; AWorker 0 1;
                 AWorker 0 0] s0)
    as [s|] eqn:Hrun.
  - assert (registered (clients s) 4) as Hreg.
    { apply (Hclaim env_ok s0 _ s 4 Hm Hrun).
      exists 0%nat. right. right. left.
      vm_compute in Hm. injection Hm as <-.
      vm_compute in Hrun. injection Hrun as <-. reflexivity. }
    rewrite (run_clients _ _ _ Hrun), (main_setup_clients env_ok s0 Hm) in Hreg.
    by apply not_elem_of_nil in Hreg.
  - vm_compute in Hm. injection Hm as <-. vm_compute in Hrun. done.
Qed.

(** C2 (amended).  No transition of the server calls [add_client] or
    [remove_client], and [init_client_manager] is never run: from the
    state in which [main] enters its accept loop, after any sequence of
    listener, worker and sender steps the client manager is still the
    zero-initialised global, so no handle is registered; in particular a
    dispatched, not yet closed connection is not a member of the
    registry. *)
Theorem worker_leaves_registry_untouched
    (e : setup_env) (s0 : system) (acts : list action) (s : system) :
  main_setup e = MainListening s0 ->
  run acts s0 = Some s ->
  clients s = {| client_fds := []; count := 0 |} /\
  (forall fd, ~ registered (clients s) fd) /\
  (forall fd, dispatched s fd -> ~ registered (clients s) fd).
Proof.
  intros Hm Hrun.
  assert (clients s = {| client_fds := []; count := 0 |}) as Hc.
  { rewrite (run_clients _ _ _ Hrun). by apply (main_setup_clients e). }
  assert (forall fd, ~ registered (clients s) fd) as Hnone.
  { intros fd. rewrite Hc. unfold registered, registered_fds. simpl.
    apply not_elem_of_nil. }
  split; [done|]. split; [done|]. intros fd _. apply Hnone.
Qed.

Lemma worker_leaves_registry_untouched_witness :
  let acts := [AAccept 4 (Some 1%positive); AWorker 0 0; AWorker 0 1;
               AWorker 0 0; AWorker 0 5; AWorker 0 0; AWorker 0 0] in
  exists s0 s,
    main_setup env_ok = MainListening s0 /\
    run acts s0 = Some s /\
    clients s = {| client_fds := []; count := 0 |}.
Proof.
  intros acts. eexists _, _.
  split; [vm_compute; reflexivity|].
  split; [vm_compute; reflexivity|].
  refine (proj1 (worker_leaves_registry_untouched env_ok _ acts _ _ _));
    [vm_compute; reflexivity | vm_compute; reflexivity].
Defined.

(** C5 (the source does not do this).  The claim is that a sender whose
    [send] fails logs and stops without closing the socket.  In the
    source the failing [send] is logged, the loop is left, and the next
    thing [sender_thread] does is [close(connfd)] (line 189), whatever
    the worker that owns the connection is doing. *)
Theorem sender_closes_socket_after_send_failure
    (s : system) (j : nat) (fd counter r : Z) :
  senders s !! j = Some (SSend fd counter) ->
  r < 0 ->
  exists s1 s2,
    step (ASender j r) s = Some s1 /\
    senders s1 !! j = Some (SClose fd) /\
    trace s1 = trace s ++ [EvSend fd (test_message counter) r;
                           EvPerror "Failed to send data"] /\
    (forall r', step (ASender j r') s1 = Some s2) /\
    senders s2 !! j = Some SExit /\
    trace s2 = trace s1 ++ [EvClose fd] /\
    workers s2 = workers s.
Proof.
  intros Hj Hr.
  pose proof (lookup_lt_Some _ _ _ Hj) as Hlen.
  eexists _, _. unfold step. rewrite Hj. simpl.
  destruct (decide (r < 0)); [|lia].
  split; [done|]. simpl.
  rewrite list_lookup_insert_eq by done.
  split; [done|]. split; [done|]. split; [intros r'; simpl; done|].
  simpl. rewrite list_lookup_insert_eq by (by rewrite length_insert).
  done.
Qed.

Lemma sender_closes_socket_after_send_failure_witness :
  exists s0 s s1 s2,
    main_setup env_ok = MainListening s0 /\
    run [AAccept 4 (Some 1%positive); AWorker 0 0; AWorker 0 1; AWorker 0 0] s0
    = Some s /\
    step (ASender 0 (-1)) s = Some s1 /\
    step (ASender 0 0) s1 = Some s2 /\
    close_count 4 (trace s2) = 1%nat /\
    workers s2 !! 0%nat = Some (WRecv 4).
Proof.
  destruct (main_setup env_ok) as [|s0] eqn:Hm; [vm_compute in Hm; done|].
  destruct (run [AAccept 4 (Some 1%positive); AWorker 0 0; AWorker 0 1;
                 AWorker 0 0] s0)
    as [s|] eqn:Hrun;
    [|vm_compute in Hm; injection Hm as <-; vm_compute in Hrun; done].
  assert (senders s !! 0%nat = Some (SSend 4 0) /\
          workers s !! 0%nat = Some (WRecv 4) /\
          close_count 4 (trace s) = 0%nat) as (Hj & Hw & Hc).
  { vm_compute in Hm. injection Hm as <-.
    vm_compute in Hrun. injection Hrun as <-. by vm_compute. }
  destruct (sender_closes_socket_after_send_failure s 0 4 0 (-1) Hj)
    as (s1 & s2 & H1 & _ & Ht1 & H2 & _ & Ht2 & Hws); [lia|].
  exists s0, s, s1, s2.
  split; [done|]. split; [done|]. split; [done|]. split; [apply H2|].
  split; [|by rewrite Hws].
  rewrite Ht2, Ht1. unfold close_count in *.
  rewrite !filter_app, !length_app, Hc. reflexivity.
Defined.

(** C7 (the source does not do this for [setsockopt]).  The claim lists a
    failing socket-option call among the fatal start-up failures.  The
    source calls [setsockopt] before [socket] and discards its result
    (line 243), while [socket], [bind], [listen] and [pthread_create] are
    each checked and lead to [exit(EXIT_FAILURE)].  With [setsockopt]
    returning -1 and every other call succeeding, [main] does not exit:
    it starts its four workers and enters the accept loop. *)
Theorem setsockopt_failure_ignored :
  exists s,
    main_setup env_setsockopt_fails = MainListening s /\
    workers s = replicate NUM_WORKER_THREADS WDequeue /\
    trace s = [EvSetsockopt (-1); EvSocket 3; EvBind 3 0; EvListen 3 0;
               EvThreadCreate 0; EvThreadCreate 0; EvThreadCreate 0;
               EvThreadCreate 0; EvPrintf (LogListening PORT)].
Proof. eexists. split; [vm_compute; reflexivity|]. split; reflexivity. Qed.

(* ===================================================================== *)
(** * Part III: further properties of the code                            *)
(* ===================================================================== *)

(** ** The client manager: round trips and composition *)

Lemma remove_client_at (cm : client_manager_t) (fd : Z) :
  cm_wf cm -> registered cm fd ->
  exists k : nat,
    (k < Z.to_nat (count cm))%nat /\
    client_fds cm !! k = Some fd /\
    remove_client cm fd
    = (removed_at cm k, [EvPrintf (LogClientRemoved fd (count cm - 1))]).
Proof.
  intros Hwf Hreg. pose proof Hwf as [Hlen Hc].
  destruct (list_find (fun x => x = fd) (registered_fds cm))
    as [[k x]|] eqn:Hfind.
  - apply list_find_Some in Hfind as (Hk & -> & Hfirst).
    pose proof (lookup_lt_Some _ _ _ Hk) as Hlt.
    rewrite registered_fds_length in Hlt by done.
    unfold registered_fds in Hk. rewrite lookup_take_lt in Hk by done.
    exists k. split; [done|]. split; [done|].
    apply (remove_client_loop_hit cm fd _ 0 k); [lia | by apply cell_lookup |].
    intros k' Hk' Heq. unfold MAX_CLIENTS in *.
    destruct (lookup_lt_is_Some_2 (client_fds cm) k') as [y Hy]; [lia|].
    apply (Hfirst k' y); [|lia|].
    + unfold registered_fds. rewrite lookup_take_lt; [done | lia].
    + rewrite <- Heq. symmetry. by apply cell_lookup.
  - exfalso. apply list_find_None in Hfind.
    rewrite Forall_forall in Hfind. by apply (Hfind fd).
Qed.

(** X1.  Registering a handle and unregistering it again gives back the
    registry as it was: same count, same handles in the same order,
    whether or not the handle was registered before. *)
Theorem add_then_remove_restores (cm : client_manager_t) (fd : Z) :
  cm_wf cm ->
  count cm < MAX_CLIENTS ->
  let cm' := (remove_client (add_client cm fd).1 fd).1 in
  count cm' = count cm /\ registered_fds cm' = registered_fds cm.
Proof.
  intros Hwf Hroom cm'.
  destruct (add_client_stores cm fd Hwf Hroom) as (Hwf1 & Hc1 & Hr1).
  assert (registered (add_client cm fd).1 fd) as Hin.
  { unfold registered. rewrite Hr1. apply elem_of_app. right.
    apply list_elem_of_here. }
  destruct (remove_client_at _ fd Hwf1 Hin) as (k & Hk & Hfd & Hrm).
  unfold cm'. rewrite Hrm. simpl. split; [lia|].
  unfold registered_fds, removed_at. simpl. rewrite Hc1.
  replace (count cm + 1 - 1) with (count cm) by lia.
  assert (client_fds (add_client cm fd).1
          = <[Z.to_nat (count cm) := fd]> (client_fds cm)) as Hfds.
  { unfold add_client. by destruct (decide (count cm < MAX_CLIENTS)). }
  destruct Hwf as [Hlen Hc]. unfold MAX_CLIENTS in *.
  rewrite Hfds in *.
  rewrite (cell_lookup _ _ fd); last by (apply list_lookup_insert_eq; lia).
  rewrite list_insert_id by done.
  by rewrite take_insert_ge.
Qed.

Lemma add_then_remove_restores_witness :
  let cm := {| client_fds := [4; 5; 6] ++ replicate 97 0; count := 3 |} in
  registered_fds (remove_client (add_client cm 5).1 5).1 = [4; 5; 6].
Proof.
  intros cm.
  assert (cm_wf cm) as Hwf
    by (split; [reflexivity | simpl; unfold MAX_CLIENTS; lia]).
  assert (count cm < MAX_CLIENTS) as Hroom by (simpl; unfold MAX_CLIENTS; lia).
  exact (proj2 (add_then_remove_restores cm 5 Hwf Hroom)).
Defined.

(** X2.  [remove_client fd] never touches another handle: every other
    handle is stored exactly as often as before, and is registered
    afterwards exactly when it was before. *)
Theorem remove_client_keeps_others (cm : client_manager_t) (fd fd' : Z) :
  cm_wf cm ->
  fd' <> fd ->
  occurrences (remove_client cm fd).1 fd' = occurrences cm fd' /\
  (registered (remove_client cm fd).1 fd' <-> registered cm fd').
Proof.
  intros Hwf Hne.
  destruct (decide (registered cm fd)) as [Hreg|Hnot].
  - destruct (remove_client_hit cm fd Hwf Hreg) as (_ & _ & Hp).
    split.
    + unfold occurrences. rewrite <- Hp.
      by rewrite filter_cons_False by (intros ?; by apply Hne).
    + unfold registered. rewrite <- Hp, elem_of_cons.
      split; [by right | by intros [?|?]].
  - by rewrite remove_client_miss.
Qed.

Lemma remove_client_keeps_others_witness :
  let cm := {| client_fds := [4; 5; 6; 5] ++ replicate 96 0; count := 4 |} in
  occurrences (remove_client cm 4).1 5 = 2%nat.
Proof.
  intros cm.
  assert (cm_wf cm) as Hwf
    by (split; [reflexivity | simpl; unfold MAX_CLIENTS; lia]).
  exact (proj1 (remove_client_keeps_others cm 4 5 Hwf ltac:(lia))).
Defined.

(** X3.  After [add_client cm fd] the handle is registered exactly when
    there was a free cell or it was registered already; a handle turned
    away at capacity is not registered.  No other handle's membership
    changes. *)
Theorem add_client_registers_iff_room (cm : client_manager_t) (fd : Z) :
  cm_wf cm ->
  (registered (add_client cm fd).1 fd
     <-> count cm < MAX_CLIENTS \/ registered cm fd) /\
  (forall fd', fd' <> fd ->
     (registered (add_client cm fd).1 fd' <-> registered cm fd')).
Proof.
  intros Hwf. destruct (decide (count cm < MAX_CLIENTS)) as [Hroom|Hfull].
  - destruct (add_client_stores cm fd Hwf Hroom) as (_ & _ & Hr).
    unfold registered. rewrite Hr. split.
    + split; [by left|]. intros _. apply elem_of_app. right.
      apply list_elem_of_here.
    + intros fd' Hne. rewrite elem_of_app, list_elem_of_singleton.
      split; [by intros [?|?] | by left].
  - rewrite add_client_full by lia. simpl. split; [|done].
    split; [by right|]. intros [?|?]; [lia | done].
Qed.

Lemma add_client_registers_iff_room_witness :
  let full := {| client_fds := replicate 100 7; count := 100 |} in
  ~ registered (add_client full 9).1 9.
Proof.
  intros full.
  assert (cm_wf full) as Hwf
    by (split; [reflexivity | simpl; unfold MAX_CLIENTS; lia]).
  destruct (add_client_registers_iff_room full 9 Hwf) as [Hiff _].
  intros Hin. apply Hiff in Hin as [Hroom|Hreg].
  - simpl in Hroom. unfold MAX_CLIENTS in Hroom. lia.
  - revert Hreg. apply (bool_decide_eq_false_1 (registered full 9)).
    reflexivity.
Defined.

Lemma run_registry_adds (fds : list Z) (cm : client_manager_t) :
  cm_wf cm ->
  registered_fds (run_registry_ops (OpAdd <$> fds) cm)
  = registered_fds cm ++ take (Z.to_nat (MAX_CLIENTS - count cm)) fds.
Proof.
  revert cm. induction fds as [|fd fds IH]; intros cm Hwf; simpl.
  - by rewrite take_nil, app_nil_r.
  - destruct (decide (count cm < MAX_CLIENTS)) as [Hroom|Hfull].
    + destruct (add_client_stores cm fd Hwf Hroom) as (Hwf1 & Hc1 & Hr1).
      rewrite IH by done. rewrite Hr1, Hc1, <- app_assoc. simpl.
      replace (Z.to_nat (MAX_CLIENTS - count cm))
        with (S (Z.to_nat (MAX_CLIENTS - (count cm + 1)))) by lia.
      done.
    + rewrite add_client_full by lia. simpl. rewrite IH by done.
      by replace (Z.to_nat (MAX_CLIENTS - count cm)) with 0%nat by lia.
Qed.

(** X4.  The registry holds the first [MAX_CLIENTS] (100) handles added
    to it and no more: after [init_client_manager] and any run of
    [add_client] calls, the registered handles are the first 100 of the
    handles passed, in call order; later ones are dropped. *)
Theorem registry_keeps_first_max_clients
    (cells : list Z) (fds : list Z) (cm0 : client_manager_t)
    (evs : list event) :
  length cells = Z.to_nat MAX_CLIENTS ->
  init_client_manager (Some cells) = (Ret cm0, evs) ->
  let cm := run_registry_ops (OpAdd <$> fds) cm0 in
  registered_fds cm = take (Z.to_nat MAX_CLIENTS) fds /\
  count cm = Z.min (Z.of_nat (length fds)) MAX_CLIENTS.
Proof.
  intros Hlen Hinit cm. simpl in Hinit. injection Hinit as <- <-.
  set (cm0 := {| client_fds := cells; count := 0 |}) in *.
  assert (cm_wf cm0) as Hwf0
    by (split; simpl; [done | unfold MAX_CLIENTS; lia]).
  assert (registered_fds cm = take (Z.to_nat MAX_CLIENTS) fds) as Hregs.
  { unfold cm. rewrite run_registry_adds by done. simpl.
    unfold registered_fds. simpl. by rewrite Z.sub_0_r. }
  split; [done|].
  assert (cm_wf cm) as Hwf by (by apply run_registry_ops_wf).
  pose proof (registered_fds_length cm Hwf) as Hl.
  rewrite Hregs, length_take in Hl. destruct Hwf as [_ Hc].
  unfold MAX_CLIENTS in *. lia.
Qed.

Lemma registry_keeps_first_max_clients_witness :
  let fds := Z.of_nat <$> seq 0 150 in
  let cm := run_registry_ops (OpAdd <$> fds)
              {| client_fds := replicate 100 0; count := 0 |} in
  registered_fds cm = take 100 fds /\ count cm = 100.
Proof.
  intros fds cm.
  exact (registry_keeps_first_max_clients (replicate 100 0) fds _ []
           eq_refl eq_refl).
Defined.

Lemma send_outcomes_partition (send_ret : nat -> Z) (n i : nat) :
  (length (filter (fun k => (0 <= send_ret k)%Z) (seq i n))
   + length (filter (fun k => (send_ret k < 0)%Z) (seq i n)) = n)%nat.
Proof.
  revert i. induction n as [|n IH]; intros i; [done|].
  specialize (IH (S i)). cbn [seq].
  destruct (decide (send_ret i < 0)).
  - rewrite filter_cons_False by lia. rewrite filter_cons_True by done.
    simpl. lia.
  - rewrite filter_cons_True by lia. rewrite filter_cons_False by done.
    simpl. lia.
Qed.

Lemma broadcast_loop_accounting
    (cm : client_manager_t) (data : string) (send_ret : nat -> Z) (n i : nat) :
  sends_delivered (broadcast_loop cm data send_ret i n)
    = cell (client_fds cm) <$> filter (fun k => 0 <= send_ret k) (seq i n) /\
  send_failures_logged (broadcast_loop cm data send_ret i n)
    = length (filter (fun k => send_ret k < 0) (seq i n)).
Proof.
  revert i. induction n as [|n IH]; intros i; [done|].
  destruct (IH (S i)) as [IHd IHf].
  cbn [broadcast_loop seq]. destruct (decide (send_ret i < 0)) as [Hf|Hok].
  - cbn [app]. rewrite sends_delivered_failed by done.
    rewrite send_failures_logged_ok, send_failures_logged_failed.
    rewrite filter_cons_False by lia. rewrite filter_cons_True by done.
    rewrite IHd, IHf. done.
  - cbn [app]. rewrite sends_delivered_ok, send_failures_logged_ok by lia.
    rewrite filter_cons_True by lia. rewrite filter_cons_False by done.
    rewrite IHd, IHf. done.
Qed.

(** X5.  Whatever subset of the [send] calls of a broadcast fails, every
    registered handle whose call succeeds is delivered to, in registry
    order, every failure is logged once, and deliveries plus logged
    failures add up to the number of registered handles. *)
Theorem broadcast_accounting
    (cm : client_manager_t) (data : string) (send_ret : nat -> Z) :
  cm_wf cm ->
  let K := Z.to_nat (count cm) in
  let tr := (broadcast_to_clients cm data send_ret).2 in
  sends_delivered tr
    = cell (client_fds cm) <$> filter (fun k => 0 <= send_ret k) (seq 0 K) /\
  send_failures_logged tr
    = length (filter (fun k => send_ret k < 0) (seq 0 K)) /\
  (length (sends_delivered tr) + send_failures_logged tr = K)%nat.
Proof.
  intros Hwf K tr.
  destruct (broadcast_loop_accounting cm data send_ret K 0) as [Hd Hf].
  unfold tr, broadcast_to_clients. simpl. fold K.
  split; [done|]. split; [done|].
  rewrite Hd, Hf, length_fmap. apply send_outcomes_partition.
Qed.

Lemma broadcast_accounting_witness :
  let cm := {| client_fds := [4; 5; 6] ++ replicate 97 0; count := 3 |} in
  let tr := (broadcast_to_clients cm "hello" (fun _ => -1)).2 in
  sends_delivered tr = [] /\ send_failures_logged tr = 3%nat.
Proof.
  intros cm tr.
  assert (cm_wf cm) as Hwf
    by (split; [reflexivity | simpl; unfold MAX_CLIENTS; lia]).
  destruct (broadcast_accounting cm "hello" (fun _ => -1) Hwf) as (Hd & Hf & _).
  exact (conj Hd Hf).
Defined.

(** ** The connection queue: round trip, commutation, memory *)

(** X6.  A handle put into an empty queue is the next one taken out, and
    taking it out leaves heap and queue exactly as they were before the
    [enqueue]: the node is freed and both pointers are [NULL] again. *)
Theorem enqueue_dequeue_round_trip
    (h : node_heap) (q : conn_queue_t) (fd : Z) (a : addr) :
  queue_inv h q [] ->
  h !! a = None ->
  exists h1 q1,
    enqueue h q fd (Some a) = ((h1, q1), [EvCondSignal]) /\
    dequeue h1 q1 = DeqRet fd h q.
Proof.
  intros (Hch & Htl & _ & _) Hfresh. simpl in Hch, Htl.
  destruct q as [hd tl]. simpl in Hch, Htl. subst hd tl.
  eexists _, _. split; [reflexivity|].
  unfold dequeue. simpl. rewrite lookup_insert_eq. simpl.
  by rewrite delete_insert_id.
Qed.

Lemma enqueue_dequeue_round_trip_witness :
  exists h1 q1,
    enqueue ∅ init_queue 7 (Some 5%positive) = ((h1, q1), [EvCondSignal]) /\
    dequeue h1 q1 = DeqRet 7 ∅ init_queue.
Proof.
  exact (enqueue_dequeue_round_trip ∅ init_queue 7 5%positive
           queue_inv_init eq_refl).
Defined.

(** X7.  On a non-empty queue the producer and a consumer do not
    interfere: [enqueue] followed by [dequeue] and [dequeue] followed by
    [enqueue] return the same handle (the old head) and end in the same
    heap and the same queue. *)
Theorem enqueue_dequeue_commute
    (h : node_heap) (q : conn_queue_t) (x : addr) (fdx : Z)
    (ns : list (addr * Z)) (fd : Z) (a : addr) :
  queue_inv h q ((x, fdx) :: ns) ->
  h !! a = None ->
  exists h1 q1 h2 q2 h' q',
    enqueue h q fd (Some a) = ((h1, q1), [EvCondSignal]) /\
    dequeue h1 q1 = DeqRet fdx h' q' /\
    dequeue h q = DeqRet fdx h2 q2 /\
    enqueue h2 q2 fd (Some a) = ((h', q'), [EvCondSignal]).
Proof.
  intros (Hch & Htl & Hnd & Hdom) Hfresh.
  destruct Hch as (Hhd & nx & Hx & Hrest).
  assert (x <> a) as Hxa by (intros ->; congruence).
  simpl in Hnd. apply NoDup_cons in Hnd as [Hxns _].
  set (new := {| connfd := fd; next := None |}).
  destruct ns as [|[y fdy] ns].
  - simpl in Hrest, Htl. subst nx.
    exists (alter (set_next (Some a)) x (<[a := new]> h)),
           {| head := Some x; tail := Some a |},
           (delete x h), {| head := None; tail := None |},
           (<[a := new]> (delete x h)), {| head := Some a; tail := Some a |}.
    split; [unfold enqueue; by rewrite Htl, Hhd|].
    split; [|split; [unfold dequeue; by rewrite Hhd, Hx | done]].
    unfold dequeue. simpl.
    rewrite lookup_alter_eq, lookup_insert_ne, Hx by done. simpl.
    by rewrite delete_alter_eq, delete_insert_ne.
  - destruct Hrest as (-> & _).
    assert (exists t, tail q = Some t /\ t <> x) as (t & Ht & Htx).
    { rewrite Htl. simpl.
      destruct (last ((y, fdy) :: ns).*1) as [t|] eqn:Hl.
      - exists t. split; [by destruct ns|].
        intros ->. apply Hxns. by apply last_Some_elem_of.
      - by apply last_None in Hl. }
    exists (alter (set_next (Some a)) t (<[a := new]> h)),
           {| head := Some x; tail := Some a |},
           (delete x h), {| head := Some y; tail := Some t |},
           (alter (set_next (Some a)) t (<[a := new]> (delete x h))),
           {| head := Some y; tail := Some a |}.
    split; [unfold enqueue; by rewrite Ht, Hhd|].
    split; [|split; [unfold dequeue; by rewrite Hhd, Hx, Ht | done]].
    unfold dequeue. simpl.
    rewrite lookup_alter_ne, lookup_insert_ne, Hx by done. simpl.
    by rewrite delete_alter_ne, delete_insert_ne.
Qed.

Lemma enqueue_dequeue_commute_witness :
  exists h q h' q',
    enqueue ∅ init_queue 11 (Some 1%positive) = ((h, q), [EvCondSignal]) /\
    (exists h1 q1,
       enqueue h q 13 (Some 3%positive) = ((h1, q1), [EvCondSignal]) /\
       dequeue h1 q1 = DeqRet 11 h' q') /\
    (exists h2 q2,
       dequeue h q = DeqRet 11 h2 q2 /\
       enqueue h2 q2 13 (Some 3%positive) = ((h', q'), [EvCondSignal])).
Proof.
  destruct (enqueue_inv ∅ init_queue [] 11 1%positive queue_inv_init eq_refl)
    as (h & q & He & Hinv).
  assert (h !! 3%positive = None) as Hfresh.
  { cbv [enqueue init_queue tail] in He. injection He as <- _. done. }
  destruct (enqueue_dequeue_commute h q _ _ _ 13 3%positive Hinv Hfresh)
    as (h1 & q1 & h2 & q2 & h' & q' & He1 & Hd1 & Hd2 & He2).
  exists h, q, h', q'. split; [done|]. split; [by exists h1, q1|].
  by exists h2, q2.
Defined.

(** X8.  The queue neither leaks nor dangles.  After any run of
    [enqueue] and [dequeue] calls from [init_queue], the heap holds
    exactly one node per waiting handle; [dequeue] never follows a dead
    pointer; it waits exactly when no handle is queued; and an emptied
    queue is back in its initial state with every node freed. *)
Theorem queue_no_leak_no_fault
    (ops : list queue_op) (h : node_heap) (q : conn_queue_t) (outs : list Z) :
  run_queue_ops ops ∅ init_queue = Some (h, q, outs) ->
  size h = length (queue_contents h q) /\
  dequeue h q <> DeqFault /\
  (dequeue h q = DeqWait <-> queue_contents h q = []) /\
  (queue_contents h q = [] -> h = ∅ /\ q = init_queue).
Proof.
  intros Hrun.
  destruct (run_queue_ops_inv ops _ _ [] _ _ _ queue_inv_init Hrun)
    as (ns & Hinv & _).
  rewrite (queue_contents_inv _ _ _ Hinv).
  pose proof Hinv as (Hch & Htl & Hnd & Hdom).
  split.
  { rewrite <- (size_dom (D := gset addr) h), Hdom, size_list_to_set by done.
    by rewrite !length_fmap. }
  destruct ns as [|[a fd] ns].
  - rewrite (dequeue_empty _ _ Hinv). split; [done|]. split; [done|].
    intros _. split.
    + apply (dom_empty_inv_L (D := gset addr)). by rewrite Hdom.
    + destruct q as [hd tl]. simpl in Hch, Htl. by subst.
  - destruct (dequeue_inv _ _ _ _ _ Hinv) as (q' & -> & _).
    split; [done|]. split; [|done]. split; done.
Qed.

Lemma queue_no_leak_no_fault_witness :
  let ops := [Enq 11 (Some 1%positive); Enq 12 (Some 2%positive); Deq] in
  exists h q,
    run_queue_ops ops ∅ init_queue = Some (h, q, [11]) /\
    size h = length (queue_contents h q) /\
    queue_contents h q = [12].
Proof.
  intros ops. eexists _, _. split; [vm_compute; reflexivity|].
  split; [|vm_compute; reflexivity].
  refine (proj1 (queue_no_leak_no_fault ops _ _ _ _)).
  vm_compute. reflexivity.
Defined.

(** ** [main]: which start-up runs reach the accept loop *)

Lemma main_setup_listening (e : setup_env) (s : system) :
  main_setup e = MainListening s <-> setup_succeeds e /\ s = listening_state e.
Proof.
  unfold main_setup, setup_succeeds, listening_state, NUM_WORKER_THREADS.
  split.
  - intros Hm.
    destruct (decide (r_socket e < 0)); [done|].
    destruct (decide (r_bind e < 0)); [done|].
    destruct (decide (r_listen e < 0)); [done|].
    cbn [create_workers] in Hm.
    destruct (decide (r_create e 0 = 0)) as [E0|]; [|done].
    destruct (decide (r_create e 1 = 0)) as [E1|]; [|done].
    destruct (decide (r_create e 2 = 0)) as [E2|]; [|done].
    destruct (decide (r_create e 3 = 0)) as [E3|]; [|done].
    injection Hm as <-. split.
    + split; [lia|]. split; [lia|]. split; [lia|].
      intros i Hi. destruct i as [|[|[|[|i]]]]; [done..|lia].
    + rewrite E0, E1, E2, E3. reflexivity.
  - intros [(Hs & Hb & Hl & Hc) ->].
    destruct (decide (r_socket e < 0)); [lia|].
    destruct (decide (r_bind e < 0)); [lia|].
    destruct (decide (r_listen e < 0)); [lia|].
    cbn [create_workers].
    rewrite (Hc 0%nat), (Hc 1%nat), (Hc 2%nat), (Hc 3%nat) by lia.
    done.
Qed.

(** X9.  [main] reaches its accept loop exactly when [socket], [bind],
    [listen] and the four [pthread_create] calls succeed, whatever
    [setsockopt] returned; the process then has four workers waiting at
    [dequeue], an empty queue, no sender, and has printed the listening
    line. *)
Theorem main_listens_iff_setup_succeeds (e : setup_env) :
  (setup_succeeds e <-> exists s, main_setup e = MainListening s) /\
  (forall s, main_setup e = MainListening s ->
     workers s = replicate NUM_WORKER_THREADS WDequeue /\
     senders s = [] /\
     queue_contents (q_heap s) (queue s) = [] /\
     sockfd s = r_socket e /\
     last (trace s) = Some (EvPrintf (LogListening PORT))).
Proof.
  split.
  - split.
    + intros Hok. exists (listening_state e). by apply main_setup_listening.
    + intros [s Hm]. by apply main_setup_listening in Hm as [Hok _].
  - intros s Hm. apply main_setup_listening in Hm as [_ ->]. done.
Qed.

Lemma main_listens_iff_setup_succeeds_witness :
  exists s, main_setup env_setsockopt_fails = MainListening s /\
            workers s = replicate NUM_WORKER_THREADS WDequeue.
Proof.
  destruct (main_listens_iff_setup_succeeds env_setsockopt_fails)
    as [[Hex _] Hst].
  destruct Hex as [s Hm].
  - split; [simpl; lia|]. split; [simpl; lia|]. split; [simpl; lia|]. done.
  - exists s. split; [done|]. by apply Hst.
Defined.

(** X10.  Every way [main] gives up during start-up ends in
    [exit(EXIT_FAILURE)].  The listening socket is closed before the
    exit exactly when [socket] had succeeded; nothing else is closed.
    Fewer than four workers exist then (none unless it was a
    [pthread_create] that failed), and nothing was queued. *)
Theorem main_exit_paths (e : setup_env) (status : Z) (s : system) :
  main_setup e = MainExit status s ->
  status = EXIT_FAILURE /\
  ~ setup_succeeds e /\
  last (trace s) = Some (EvExit EXIT_FAILURE) /\
  closed_fds (trace s)
    = (if decide (r_socket e < 0) then [] else [r_socket e]) /\
  (length (workers s) < NUM_WORKER_THREADS)%nat /\
  (workers s <> [] ->
     0 <= r_socket e /\ 0 <= r_bind e /\ 0 <= r_listen e /\ r_create e 0 = 0) /\
  senders s = [] /\ q_heap s = ∅.
Proof.
  intros Hm.
  assert (~ setup_succeeds e) as Hnot.
  { intros Hok.
    assert (main_setup e = MainListening (listening_state e)) as Hl
      by (by apply main_setup_listening).
    congruence. }
  revert Hm. unfold main_setup, NUM_WORKER_THREADS.
  destruct (decide (r_socket e < 0)).
  { intros [= <- <-]. repeat (split; [done|]). split; [simpl; lia|].
    split; [done|]. done. }
  destruct (decide (r_bind e < 0)).
  { intros [= <- <-]. repeat (split; [done|]). split; [simpl; lia|].
    split; [done|]. done. }
  destruct (decide (r_listen e < 0)).
  { intros [= <- <-]. repeat (split; [done|]). split; [simpl; lia|].
    split; [done|]. done. }
  cbn [create_workers].
  destruct (decide (r_create e 0 = 0)) as [E0|].
  2:{ intros [= <- <-]. repeat (split; [done|]). split; [simpl; lia|].
      split; [done|]. done. }
  destruct (decide (r_create e 1 = 0)) as [E1|].
  2:{ intros [= <- <-]. repeat (split; [done|]). split; [simpl; lia|].
      split; [intros _; lia|]. done. }
  destruct (decide (r_create e 2 = 0)) as [E2|].
  2:{ intros [= <- <-]. repeat (split; [done|]). split; [simpl; lia|].
      split; [intros _; lia|]. done. }
  destruct (decide (r_create e 3 = 0)) as [E3|].
  2:{ intros [= <- <-]. repeat (split; [done|]). split; [simpl; lia|].
      split; [intros _; lia|]. done. }
  done.
Qed.

Lemma main_exit_paths_witness :
  exists s,
    main_setup env_third_worker_fails = MainExit EXIT_FAILURE s /\
    closed_fds (trace s) = [3] /\ length (workers s) = 2%nat.
Proof.
  eexists. split; [vm_compute; reflexivity|].
  split; [|reflexivity].
  refine (proj1 (proj2 (proj2 (proj2
            (main_exit_paths env_third_worker_fails EXIT_FAILURE _ _))))).
  vm_compute. reflexivity.
Defined.

(** ** The running server: invariants of every schedule *)

(** Case analysis on one transition: the thirteen ways [step] can
    succeed. *)
Ltac step_cases Hstep :=
  lazymatch type of Hstep with
  | step ?a ?s = Some _ =>
      destruct a as [r node|i r|j r]; unfold step in Hstep;
      [ destruct (malloc_ok (q_heap s) node) eqn:Hmalloc; [|done];
        injection Hstep as <-; unfold accept_step;
        destruct (decide (r < 0)) as [Hr|Hr];
        [|destruct (enqueue (q_heap s) (queue s) r node)
            as [[h q] evs] eqn:Henq]
      | destruct (workers s !! i) as [pc|] eqn:Hpc; [|done];
        simpl in Hstep; destruct pc as [|fd|fd|fd|fd]; simpl in Hstep;
        [ destruct (dequeue (q_heap s) (queue s)) as [fd h q| |] eqn:Hdeq;
          simpl in Hstep; [|done|done]; injection Hstep as <-
        | destruct (decide (r = 0)) as [Hr|Hr]; simpl in Hstep; [done|];
          injection Hstep as <-
        | destruct (decide (r = 0)) as [Hr|Hr]; injection Hstep as <-
        | destruct (decide (0 < r)) as [Hr|Hr];
          [|destruct (decide (r < 0)) as [Hr'|Hr']]; injection Hstep as <-
        | injection Hstep as <- ]
      | destruct (senders s !! j) as [pc|] eqn:Hpc; [|done];
        simpl in Hstep; destruct pc as [fd c|fd|]; simpl in Hstep;
        [ destruct (decide (r < 0)) as [Hr|Hr]; injection Hstep as <-
        | injection Hstep as <-
        | done ] ]
  end.

Lemma step_workers_length (a : action) (s s' : system) :
  step a s = Some s' -> length (workers s') = length (workers s).
Proof.
  intros Hstep. step_cases Hstep; simpl; by rewrite ?length_insert.
Qed.

Lemma run_workers_length (acts : list action) (s s' : system) :
  run acts s = Some s' -> length (workers s') = length (workers s).
Proof.
  revert s. induction acts as [|a acts IH]; intros s Hrun; simpl in Hrun.
  - by injection Hrun as <-.
  - destruct (step a s) as [s1|] eqn:Hs; [|done]. simpl in Hrun.
    rewrite (IH _ Hrun). by apply (step_workers_length a).
Qed.

(** X11.  The pool never grows or shrinks: in every state the server can
    reach there are exactly [NUM_WORKER_THREADS] (4) workers, so at most
    four connections are in a read loop at the same time, however many
    are queued. *)
Theorem worker_pool_size_fixed
    (e : setup_env) (s0 : system) (acts : list action) (s : system) :
  main_setup e = MainListening s0 ->
  run acts s0 = Some s ->
  length (workers s) = NUM_WORKER_THREADS /\
  (length (filter (fun pc => in_read_loop pc = true) (workers s))
   <= NUM_WORKER_THREADS)%nat.
Proof.
  intros Hm Hrun. apply main_setup_listening in Hm as [_ ->].
  assert (length (workers s) = NUM_WORKER_THREADS) as Hlen.
  { rewrite (run_workers_length _ _ _ Hrun). done. }
  split; [done|]. rewrite <- Hlen. apply length_filter.
Qed.

Lemma worker_pool_size_fixed_witness :
  exists s0 s,
    main_setup env_ok = MainListening s0 /\
    run [AAccept 4 (Some 1%positive); AAccept 5 (Some 2%positive);
         AWorker 0 0; AWorker 0 1; AWorker 3 0; AWorker 3 1; AWorker 3 0;
         AWorker 0 0] s0 = Some s /\
    length (workers s) = NUM_WORKER_THREADS.
Proof.
  eexists _, _.
  split; [vm_compute; reflexivity|].
  split; [vm_compute; reflexivity|].
  refine (proj1 (worker_pool_size_fixed env_ok _
            [AAccept 4 (Some 1%positive); AAccept 5 (Some 2%positive);
             AWorker 0 0; AWorker 0 1; AWorker 3 0; AWorker 3 1; AWorker 3 0;
             AWorker 0 0] _ _ _));
    [vm_compute; reflexivity | vm_compute; reflexivity].
Defined.

Lemma dispatch_order_app (tr1 tr2 : list event) :
  dispatch_order (tr1 ++ tr2) = dispatch_order tr1 ++ dispatch_order tr2.
Proof. apply omap_app. Qed.

Lemma step_dispatch_fifo (a : action) (s s' : system) (ns : list (addr * Z)) :
  queue_inv (q_heap s) (queue s) ns ->
  step a s = Some s' ->
  exists ns',
    queue_inv (q_heap s') (queue s') ns' /\
    dispatch_order (trace s') ++ ns'.*2
    = dispatch_order (trace s) ++ ns.*2 ++ accepted_enqueued [a].
Proof.
  intros Hinv Hstep. step_cases Hstep; simpl;
    rewrite ?dispatch_order_app; simpl; rewrite ?app_nil_r.
  - exists ns. split; [done|].
    destruct node; [|by rewrite app_nil_r].
    destruct (decide (r < 0)); [|lia]. by rewrite app_nil_r.
  - destruct node as [a|].
    + apply bool_decide_eq_true in Hmalloc.
      destruct (enqueue_inv _ _ ns r a Hinv Hmalloc) as (h1 & q1 & He & Hinv1).
      rewrite He in Henq. injection Henq as <- <- <-.
      exists (ns ++ [(a, r)]). split; [done|].
      destruct (decide (r < 0)); [lia|].
      simpl. by rewrite fmap_app, app_nil_r.
    + simpl in Henq. injection Henq as <- <- <-.
      exists ns. split; [done|]. simpl. by rewrite !app_nil_r.
  - destruct ns as [|[a fd'] ns].
    + by rewrite (dequeue_empty _ _ Hinv) in Hdeq.
    + destruct (dequeue_inv _ _ _ _ _ Hinv) as (q1 & Hd & Hinv1).
      rewrite Hd in Hdeq. injection Hdeq as <- <- <-.
      exists ns. split; [done|]. simpl. by rewrite <- app_assoc.
  - by exists ns.
  - by exists ns.
  - by exists ns.
  - by exists ns.
  - by exists ns.
  - by exists ns.
  - by exists ns.
  - by exists ns.
  - by exists ns.
  - by exists ns.
Qed.

Lemma accepted_enqueued_cons (a : action) (acts : list action) :
  accepted_enqueued (a :: acts)
  = accepted_enqueued [a] ++ accepted_enqueued acts.
Proof. apply (omap_app _ [a] acts). Qed.

Lemma run_dispatch_fifo (acts : list action) (s s' : system)
    (ns : list (addr * Z)) :
  queue_inv (q_heap s) (queue s) ns ->
  run acts s = Some s' ->
  exists ns',
    queue_inv (q_heap s') (queue s') ns' /\
    dispatch_order (trace s') ++ ns'.*2
    = dispatch_order (trace s) ++ ns.*2 ++ accepted_enqueued acts.
Proof.
  revert s ns. induction acts as [|a acts IH]; intros s ns Hinv Hrun;
    simpl in Hrun.
  - injection Hrun as <-. exists ns. split; [done|].
    unfold accepted_enqueued. simpl. by rewrite app_nil_r.
  - destruct (step a s) as [s1|] eqn:Hs; [|done]. simpl in Hrun.
    destruct (step_dispatch_fifo a s s1 ns Hinv Hs) as (ns1 & Hinv1 & H1).
    destruct (IH s1 ns1 Hinv1 Hrun) as (ns' & Hinv' & H').
    exists ns'. split; [done|].
    rewrite H', accepted_enqueued_cons, !app_assoc.
    by rewrite <- (app_assoc _ ns.*2), H1.
Qed.



Lemma close_count_closed_fds fd tr :
  close_count fd tr = count_fd fd (closed_fds tr).
Proof.
  unfold close_count, count_fd, closed_fds.
  induction tr as [|e tr IH]; [done|].
  destruct e; simpl;
    try (rewrite filter_cons_False by done; exact IH).
  destruct (decide (fd0 = fd)) as [->|Hne].
  - rewrite !filter_cons_True by done. simpl. by rewrite IH.
  - rewrite !filter_cons_False by congruence. exact IH.
Qed.

Lemma count_fd_app fd l1 l2 :
  count_fd fd (l1 ++ l2) = (count_fd fd l1 + count_fd fd l2)%nat.
Proof. unfold count_fd. by rewrite filter_app, length_app. Qed.

Lemma closed_fds_app tr1 tr2 :
  closed_fds (tr1 ++ tr2) = closed_fds tr1 ++ closed_fds tr2.
Proof. apply omap_app. Qed.

Lemma filter_insert_length {A} (P : A -> Prop) `{!forall x, Decision (P x)}
    (l : list A) (i : nat) (x y : A) :
  l !! i = Some x ->
  (length (filter P (<[i := y]> l)) + (if decide (P x) then 1 else 0)
   = length (filter P l) + (if decide (P y) then 1 else 0))%nat.
Proof.
  intros Hi.
  rewrite (insert_take_drop l i y) by (by eapply lookup_lt_Some).
  rewrite <- (take_drop_middle l i x Hi) at 3.
  rewrite !filter_app, !length_app.
  destruct (decide (P x)), (decide (P y));
    rewrite ?(filter_cons_True P x), ?(filter_cons_True P y),
            ?(filter_cons_False P x), ?(filter_cons_False P y) by done;
    simpl; lia.
Qed.

Lemma count_fd_nil fd : count_fd fd [] = 0%nat.
Proof. done. Qed.

Lemma count_fd_singleton fd x :
  count_fd fd [x] = if decide (x = fd) then 1%nat else 0%nat.
Proof.
  unfold count_fd. destruct (decide (x = fd)).
  - by rewrite filter_cons_True.
  - by rewrite filter_cons_False.
Qed.

Lemma filter_singleton_length {A} (P : A -> Prop) `{!forall x, Decision (P x)}
    (x : A) :
  length (filter P [x]) = if decide (P x) then 1%nat else 0%nat.
Proof.
  destruct (decide (P x)).
  - by rewrite filter_cons_True.
  - by rewrite filter_cons_False.
Qed.

Lemma step_close_budget (a : action) (s s' : system) (fd0 : Z) :
  step a s = Some s' -> close_budget fd0 s -> close_budget fd0 s'.
Proof.
  unfold close_budget, pending_closes. rewrite !close_count_closed_fds.
  intros Hstep Hb. step_cases Hstep; simpl;
    rewrite ?closed_fds_app, ?dispatch_order_app, ?count_fd_app; simpl.
  all: try match goal with
           | |- context [<[?i := ?y]> (workers ?s)] =>
               pose proof (filter_insert_length
                             (fun pc => worker_fd pc = Some fd0)
                             (workers s) i _ y Hpc) as Hw1;
               pose proof (filter_insert_length
                             (fun pc => pc = WAlloc fd0)
                             (workers s) i _ y Hpc) as Hw2;
               pose proof (filter_insert_length
                             (fun pc => pc = WCreate fd0)
                             (workers s) i _ y Hpc) as Hw3;
               simpl in Hw1, Hw2, Hw3
           end.
  all: try match goal with
           | |- context [<[?j := ?y]> (senders ?s)] =>
               pose proof (filter_insert_length
                             (fun pc => sender_fd pc = Some fd0)
                             (senders s) j _ y Hpc) as Hs1;
               simpl in Hs1
           end.
  all: rewrite ?filter_app, ?length_app, ?filter_singleton_length,
               ?count_fd_singleton, ?count_fd_nil; simpl.
  2:{ destruct node; simpl in Henq; [destruct (tail (queue s))|];
        injection Henq as <- <- <-; simpl; rewrite ?count_fd_nil; lia. }
  all: repeat case_decide; simplify_eq; lia.
Qed.


Lemma run_close_budget (acts : list action) (s s' : system) (fd : Z) :
  run acts s = Some s' -> close_budget fd s -> close_budget fd s'.
Proof.
  revert s. induction acts as [|a acts IH]; intros s Hrun Hb; simpl in Hrun.
  - by injection Hrun as <-.
  - destruct (step a s) as [s1|] eqn:Hs; [|done]. simpl in Hrun.
    apply (IH s1 Hrun). by apply (step_close_budget a s).
Qed.

Lemma step_no_exit (a : action) (s s' : system) :
  step a s = Some s' ->
  Forall (fun ev => is_exit ev = false) (trace s) ->
  Forall (fun ev => is_exit ev = false) (trace s').
Proof.
  intros Hstep Hno. step_cases Hstep; simpl; try done; apply Forall_app; split;
    try done; try (by repeat constructor).
  destruct node; simpl in Henq; [destruct (tail (queue s))|];
    injection Henq as <- <- <-; by repeat constructor.
Qed.

Lemma run_no_exit (acts : list action) (s s' : system) :
  run acts s = Some s' ->
  Forall (fun ev => is_exit ev = false) (trace s) ->
  Forall (fun ev => is_exit ev = false) (trace s').
Proof.
  revert s. induction acts as [|a acts IH]; intros s Hrun Hno; simpl in Hrun.
  - by injection Hrun as <-.
  - destruct (step a s) as [s1|] eqn:Hs; [|done]. simpl in Hrun.
    apply (IH s1 Hrun). by apply (step_no_exit a s).
Qed.

(** X13.  Under every schedule, a descriptor is closed at most twice for
    each time it was handed to a worker (once by the worker, once by the
    sender the worker started), so a descriptor that was never
    dispatched is never closed; and once [main] is in its accept loop no
    thread ever calls [exit]. *)
Theorem closes_bounded_by_dispatches
    (e : setup_env) (s0 : system) (acts : list action) (s : system) (fd : Z) :
  main_setup e = MainListening s0 ->
  run acts s0 = Some s ->
  (close_count fd (trace s)
   <= 2 * count_fd fd (dispatch_order (trace s)))%nat /\
  (fd ∉ dispatch_order (trace s) -> close_count fd (trace s) = 0%nat) /\
  Forall (fun ev => is_exit ev = false) (trace s).
Proof.
  intros Hm Hrun. apply main_setup_listening in Hm as [_ ->].
  assert (close_budget fd s) as Hb.
  { apply (run_close_budget acts (listening_state e)); [done|].
    unfold close_budget, pending_closes. by vm_compute. }
  unfold close_budget in Hb.
  split; [lia|]. split.
  - intros Hnot.
    assert (count_fd fd (dispatch_order (trace s)) = 0%nat) as Hz; [|lia].
    unfold count_fd.
    destruct (filter (fun x => x = fd) (dispatch_order (trace s)))
      as [|x l] eqn:Hf; [done|].
    assert (x ∈ filter (fun x => x = fd) (dispatch_order (trace s))) as Hx
      by (rewrite Hf; apply list_elem_of_here).
    apply list_elem_of_filter in Hx as [-> Hx]. done.
  - apply (run_no_exit acts (listening_state e)); [done|].
    by repeat constructor.
Qed.

Lemma closes_bounded_by_dispatches_witness :
  let acts := [AAccept 4 (Some 1%positive); AWorker 0 0; AWorker 0 1;
               AWorker 0 0; ASender 0 (-1); ASender 0 0; AWorker 0 0;
               AWorker 0 0] in
  exists s0 s,
    main_setup env_ok = MainListening s0 /\
    run acts s0 = Some s /\
    (close_count 4 (trace s)
     <= 2 * count_fd 4 (dispatch_order (trace s)))%nat /\
    close_count 4 (trace s) = 2%nat.
Proof.
  intros acts. eexists _, _.
  split; [vm_compute; reflexivity|].
  split; [vm_compute; reflexivity|].
  split; [|vm_compute; reflexivity].
  refine (proj1 (closes_bounded_by_dispatches env_ok _ acts _ 4 _ _));
    [vm_compute; reflexivity | vm_compute; reflexivity].
Defined.

(** ** Threads running on their own *)

Lemma to_int_in_range (x : Z) : INT_MIN <= x <= INT_MAX -> to_int x = x.
Proof.
  unfold to_int, INT_MIN, INT_MAX. intros Hx.
  rewrite Z.mod_small by lia. lia.
Qed.

Lemma sender_run (rs : list Z) (s : system) (j : nat) (fd c : Z) :
  senders s !! j = Some (SSend fd c) ->
  Forall (fun r => 0 <= r) rs ->
  INT_MIN <= c ->
  c + Z.of_nat (length rs) <= INT_MAX ->
  exists s',
    run (ASender j <$> rs) s = Some s' /\
    senders s' = <[j := SSend fd (c + Z.of_nat (length rs))]> (senders s) /\
    workers s' = workers s /\
    q_heap s' = q_heap s /\ queue s' = queue s /\
    trace s' = trace s ++ sender_events fd c rs.
Proof.
  revert s c. induction rs as [|r rs IH]; intros s c Hj Hok Hlo Hhi.
  - exists s. simpl. rewrite Z.add_0_r, list_insert_id, app_nil_r by done.
    done.
  - apply Forall_cons in Hok as [Hr Hok]. cbn [length] in Hhi.
    cbn [fmap list_fmap run step]. rewrite Hj. simpl.
    destruct (decide (r < 0)); [lia|]. simpl.
    rewrite (to_int_in_range (c + 1)) by (unfold INT_MIN, INT_MAX in *; lia).
    edestruct (IH (emit [EvSend fd (test_message c) r;
                         EvPrintf (LogSent fd (test_message c))]
                    (set_sender j (SSend fd (c + 1)) s)) (c + 1))
      as (s' & Hrun & Hs & Hw & Hh & Hq & Ht); [|done|lia|lia|].
    + simpl. apply list_lookup_insert_eq. by eapply lookup_lt_Some.
    + exists s'. split; [done|]. simpl in *.
      rewrite Hs, Hw, Hh, Hq, Ht, list_insert_insert_eq, <- app_assoc.
      repeat split; try done. f_equal. f_equal. lia.
Qed.

Lemma sent_messages_sender_events (fd c : Z) (rs : list Z) :
  sent_messages fd (sender_events fd c rs)
  = test_message <$> seqZ c (Z.of_nat (length rs)).
Proof.
  revert c. induction rs as [|r rs IH]; intros c; [done|].
  cbn [sender_events length]. rewrite seqZ_cons by lia.
  unfold sent_messages in *. simpl.
  destruct (decide (fd = fd)); [|done]. rewrite IH.
  do 3 f_equal; lia.
Qed.

Lemma closed_fds_sender_events (fd c : Z) (rs : list Z) :
  closed_fds (sender_events fd c rs) = [].
Proof. revert c. induction rs as [|r rs IH]; intros c; [done|]. apply IH. Qed.

Global Instance test_message_inj : Inj (=) (=) test_message.
Proof.
  intros c1 c2 Heq. unfold test_message in Heq.
  apply (inj pretty). by apply (inj (String.append _)) in Heq.
Qed.

Lemma sent_messages_app fd tr1 tr2 :
  sent_messages fd (tr1 ++ tr2) = sent_messages fd tr1 ++ sent_messages fd tr2.
Proof. apply omap_app. Qed.

(** X14.  While its [send] calls succeed and its [int] counter stays
    below [INT_MAX], a sender stays in its loop, numbers its messages
    consecutively from its counter ("Server test message #c", "#c+1",
    ...), never sends the same message twice and never closes the
    socket; nothing but its own program point and the trace changes. *)
Theorem sender_numbers_messages
    (s : system) (j : nat) (fd c : Z) (rs : list Z) :
  senders s !! j = Some (SSend fd c) ->
  Forall (fun r => 0 <= r) rs ->
  INT_MIN <= c ->
  c + Z.of_nat (length rs) <= INT_MAX ->
  exists s',
    run (ASender j <$> rs) s = Some s' /\
    senders s' !! j = Some (SSend fd (c + Z.of_nat (length rs))) /\
    sent_messages fd (trace s')
    = sent_messages fd (trace s)
      ++ (test_message <$> seqZ c (Z.of_nat (length rs))) /\
    NoDup (test_message <$> seqZ c (Z.of_nat (length rs))) /\
    closed_fds (trace s') = closed_fds (trace s) /\
    workers s' = workers s.
Proof.
  intros Hj Hok Hlo Hhi.
  destruct (sender_run rs s j fd c Hj Hok Hlo Hhi)
    as (s' & Hrun & Hs & Hw & _ & _ & Ht).
  exists s'. split; [done|]. split.
  { rewrite Hs. apply list_lookup_insert_eq. by eapply lookup_lt_Some. }
  split.
  { by rewrite Ht, sent_messages_app, sent_messages_sender_events. }
  split.
  { apply (NoDup_fmap_2 _), NoDup_seqZ. }
  split; [|done].
  by rewrite Ht, closed_fds_app, closed_fds_sender_events, app_nil_r.
Qed.

Lemma sender_numbers_messages_witness :
  exists s0 s s',
    main_setup env_ok = MainListening s0 /\
    run [AAccept 4 (Some 1%positive); AWorker 0 0; AWorker 0 1; AWorker 0 0] s0
    = Some s /\
    run (ASender 0 <$> [22; 22; 22]) s = Some s' /\
    sent_messages 4 (trace s')
    = ["Server test message #0"; "Server test message #1";
       "Server test message #2"]%string.
Proof.
  destruct (main_setup env_ok) as [|s0] eqn:Hm; [vm_compute in Hm; done|].
  destruct (run [AAccept 4 (Some 1%positive); AWorker 0 0; AWorker 0 1;
                 AWorker 0 0] s0)
    as [s|] eqn:Hrun;
    [|vm_compute in Hm; injection Hm as <-; vm_compute in Hrun; done].
  assert (senders s !! 0%nat = Some (SSend 4 0) /\
          sent_messages 4 (trace s) = []) as [Hj Hnone].
  { vm_compute in Hm. injection Hm as <-.
    vm_compute in Hrun. injection Hrun as <-. by vm_compute. }
  destruct (sender_numbers_messages s 0 4 0 [22; 22; 22] Hj)
    as (s' & Hrun' & _ & Hmsgs & _);
    [repeat constructor; lia | unfold INT_MIN; lia
    | unfold INT_MAX; simpl; lia |].
  exists s0, s, s'. split; [done|]. split; [done|]. split; [done|].
  rewrite Hmsgs, Hnone. reflexivity.
Defined.









Lemma count_fd_zero (fd : Z) (l : list Z) : fd ∉ l -> count_fd fd l = 0%nat.
Proof.
  intros Hnot. unfold count_fd.
  destruct (filter (fun x => x = fd) l) as [|x l'] eqn:Hf; [done|].
  assert (x ∈ filter (fun x => x = fd) l) as Hx
    by (rewrite Hf; apply list_elem_of_here).
  by apply list_elem_of_filter in Hx as [-> Hx].
Qed.

(** X16.  A connection that never got a queue node is lost for good:
    if [accept] returned a descriptor only in iterations where the
    [malloc] in [enqueue] failed, then no worker ever takes it, it is
    not waiting in the queue, and nobody ever closes it. *)
Theorem dropped_connection_never_served
    (e : setup_env) (s0 : system) (acts : list action) (s : system) (fd : Z) :
  main_setup e = MainListening s0 ->
  run acts s0 = Some s ->
  fd ∉ accepted_enqueued acts ->
  (fd ∉ dispatch_order (trace s)) /\
  (fd ∉ queue_contents (q_heap s) (queue s)) /\
  close_count fd (trace s) = 0%nat.
Proof.
  intros Hm Hrun Hnot. apply main_setup_listening in Hm as [_ ->].
  destruct (run_dispatch_fifo acts (listening_state e) s [] queue_inv_init Hrun)
    as (ns & Hinv & Hfifo).
  simpl in Hfifo. rewrite <- Hfifo in Hnot.
  apply not_elem_of_app in Hnot as [Hd Hq].
  rewrite (queue_contents_inv _ _ _ Hinv).
  split; [done|]. split; [done|].
  assert (close_budget fd s) as Hb.
  { apply (run_close_budget acts (listening_state e)); [done|].
    unfold close_budget, pending_closes. by vm_compute. }
  unfold close_budget in Hb. rewrite (count_fd_zero _ _ Hd) in Hb. lia.
Qed.

Lemma dropped_connection_never_served_witness :
  let acts := [AAccept 6 None; AAccept 4 (Some 1%positive); AWorker 0 0;
               AWorker 0 1; AWorker 0 0; AWorker 0 0; AWorker 0 0] in
  exists s0 s,
    main_setup env_ok = MainListening s0 /\
    run acts s0 = Some s /\
    close_count 6 (trace s) = 0%nat.
Proof.
  intros acts. eexists _, _.
  split; [vm_compute; reflexivity|].
  split; [vm_compute; reflexivity|].
  refine (proj2 (proj2 (dropped_connection_never_served
                          env_ok _ acts _ 6 _ _ _))).
  - vm_compute. reflexivity.
  - vm_compute. reflexivity.
  - apply (bool_decide_eq_false_1 (6 ∈ accepted_enqueued acts)). reflexivity.
Defined.

(** * Part IV: algo.c *)

Lemma count_loop_foldl (data cnt : list Z) (n i : nat) :
  (i + n <= length data)%nat ->
  count_loop data cnt i n = foldl count_byte cnt (take n (drop i data)).
Proof.
  revert cnt i. induction n as [|n IH]; intros cnt i Hlen; [done|].
  destruct (lookup_lt_is_Some_2 data i) as [x Hx]; [lia|].
  cbn [count_loop]. rewrite IH by lia.
  rewrite (drop_S _ _ _ Hx). simpl. by rewrite (cell_lookup _ _ _ Hx).
Qed.

Lemma count_byte_length cnt b : length (count_byte cnt b) = length cnt.
Proof. apply length_insert. Qed.

Lemma count_byte_cell cnt b k :
  length cnt = 256%nat -> is_byte b -> is_byte k ->
  cell (count_byte cnt b) (Z.to_nat k)
  = if decide (k = b) then (cell cnt (Z.to_nat k) + 1) mod 65536
    else cell cnt (Z.to_nat k).
Proof.
  intros Hlen Hb Hk. unfold count_byte, cell, is_byte in *.
  destruct (decide (k = b)) as [->|Hne].
  - rewrite list_lookup_insert_eq by lia. done.
  - rewrite list_lookup_insert_ne by lia. done.
Qed.

Lemma foldl_count_byte (l cnt : list Z) (k : Z) :
  length cnt = 256%nat ->
  Forall is_byte l -> is_byte k ->
  0 <= cell cnt (Z.to_nat k) < 65536 ->
  length (foldl count_byte cnt l) = 256%nat /\
  cell (foldl count_byte cnt l) (Z.to_nat k)
  = (cell cnt (Z.to_nat k) + byte_count k l) mod 65536.
Proof.
  revert cnt. induction l as [|b l IH]; intros cnt Hlen Hl Hk Hc.
  - split; [done|]. unfold byte_count. simpl.
    rewrite Z.add_0_r, Z.mod_small; done.
  - apply Forall_cons in Hl as [Hb Hl]. simpl.
    destruct (IH (count_byte cnt b)) as [Hlen' Hcell];
      [by rewrite count_byte_length | done | done | |].
    { rewrite count_byte_cell by done.
      destruct (decide (k = b)); [apply Z.mod_pos_bound; lia | done]. }
    split; [done|]. rewrite Hcell, count_byte_cell by done.
    unfold byte_count.
    destruct (decide (k = b)) as [->|Hne].
    + rewrite filter_cons_True by done. simpl length.
      rewrite Zplus_mod_idemp_l. f_equal. lia.
    + rewrite filter_cons_False by congruence. done.
Qed.

(** After the counting loop, cell [k] holds the number of occurrences of
    [k] among the first [data_len] bytes, modulo 65536. *)
Lemma count_loop_cells (data : list Z) (n : nat) (k : Z) :
  (n <= length data)%nat ->
  Forall is_byte data -> is_byte k ->
  cell (count_loop data (replicate 256 0) 0 n) (Z.to_nat k)
  = byte_count k (take n data) mod 65536.
Proof.
  intros Hn Hd Hk. rewrite count_loop_foldl by (simpl; lia).
  rewrite drop_0.
  assert (cell (replicate 256 0) (Z.to_nat k) = 0) as Hz.
  { unfold cell, is_byte in *.
    rewrite lookup_replicate_2 by lia. done. }
  destruct (foldl_count_byte (take n data) (replicate 256 0) k) as [_ ->];
    [by rewrite length_replicate | by apply Forall_take | done | lia |].
  by rewrite Hz.
Qed.

Lemma nonzero_cells_S_hit cnt i n :
  0 < cell cnt i ->
  nonzero_cells cnt i (S n) = i :: nonzero_cells cnt (S i) n.
Proof. intros H. unfold nonzero_cells. simpl. by rewrite filter_cons_True. Qed.

Lemma nonzero_cells_S_miss cnt i n :
  ~ 0 < cell cnt i ->
  nonzero_cells cnt i (S n) = nonzero_cells cnt (S i) n.
Proof. intros H. unfold nonzero_cells. simpl. by rewrite filter_cons_False. Qed.

Lemma collect_loop_spec (cnt result : list Z) (n i : nat) (len : nat) :
  (len + length (nonzero_cells cnt i n) <= length result)%nat ->
  exists result',
    collect_loop cnt result (Z.of_nat len) i n
    = (result', Z.of_nat (len + length (nonzero_cells cnt i n))) /\
    length result' = length result /\
    take (len + length (nonzero_cells cnt i n)) result'
    = take len result ++ (Z.of_nat <$> nonzero_cells cnt i n).
Proof.
  revert result i len. induction n as [|n IH]; intros result i len Hroom.
  - exists result. simpl. rewrite !Nat.add_0_r, app_nil_r. done.
  - cbn [collect_loop].
    destruct (decide (0 < cell cnt i)) as [Hhit|Hmiss].
    + rewrite nonzero_cells_S_hit in * by done. simpl length in *.
      destruct (IH (<[len := Z.of_nat i]> result) (S i) (S len))
        as (result' & Hrun & Hlen & Htake).
      { rewrite length_insert. lia. }
      exists result'. rewrite Nat2Z.id.
      replace (Z.of_nat len + 1) with (Z.of_nat (S len)) by lia.
      rewrite Hrun. rewrite length_insert in Hlen.
      replace (len + S (length (nonzero_cells cnt (S i) n)))%nat
        with (S len + length (nonzero_cells cnt (S i) n))%nat by lia.
      split; [done|]. split; [done|]. rewrite Htake.
      erewrite take_S_r; last by (apply list_lookup_insert_eq; lia).
      rewrite take_insert_ge by lia. by rewrite <- app_assoc.
    + rewrite nonzero_cells_S_miss in * by done. by apply IH.
Qed.

Lemma StronglySorted_filter_lt (P : nat -> Prop) `{!forall k, Decision (P k)}
    (l : list nat) :
  StronglySorted lt l -> StronglySorted lt (filter P l).
Proof.
  induction 1 as [|x l Hl IH Hx]; [constructor|].
  destruct (decide (P x)).
  - rewrite filter_cons_True by done. constructor; [done|].
    rewrite Forall_forall in *. intros y Hy.
    apply list_elem_of_filter in Hy as [_ Hy]. by apply Hx.
  - by rewrite filter_cons_False.
Qed.

Lemma StronglySorted_seq (i n : nat) : StronglySorted lt (seq i n).
Proof.
  revert i. induction n as [|n IH]; intros i; [constructor|].
  simpl. constructor; [apply IH|]. apply Forall_seq. intros; lia.
Qed.

Lemma nonzero_cells_sorted cnt i n :
  StronglySorted Z.lt (Z.of_nat <$> nonzero_cells cnt i n).
Proof.
  apply (StronglySorted_fmap _ lt); [intros; lia|].
  apply StronglySorted_filter_lt, StronglySorted_seq.
Qed.

Lemma nonzero_cells_length cnt i n : (length (nonzero_cells cnt i n) <= n)%nat.
Proof.
  unfold nonzero_cells. etrans; [apply length_filter|]. by rewrite length_seq.
Qed.

Lemma elem_of_nonzero_cells cnt (b : Z) :
  b ∈ (Z.of_nat <$> nonzero_cells cnt 0 256)
  <-> is_byte b /\ 0 < cell cnt (Z.to_nat b).
Proof.
  unfold nonzero_cells, is_byte. rewrite list_elem_of_fmap. split.
  - intros (k & -> & Hk). apply list_elem_of_filter in Hk as [Hpos Hk].
    apply elem_of_seq in Hk. rewrite Nat2Z.id. split; [lia | done].
  - intros [Hb Hpos]. exists (Z.to_nat b). split; [lia|].
    apply list_elem_of_filter. split; [done|]. apply elem_of_seq. lia.
Qed.

Lemma byte_count_pos_elem_of (b : Z) (l : list Z) :
  0 < byte_count b l <-> b ∈ l.
Proof.
  unfold byte_count. split.
  - intros Hpos.
    destruct (filter (fun x => x = b) l) as [|x l'] eqn:Hf;
      [simpl in Hpos; lia|].
    assert (x ∈ filter (fun x => x = b) l) as Hx
      by (rewrite Hf; apply list_elem_of_here).
    by apply list_elem_of_filter in Hx as [-> Hx].
  - intros Hin.
    assert (b ∈ filter (fun x => x = b) l) as Hx
      by (by apply list_elem_of_filter).
    destruct (filter (fun x => x = b) l); [by apply not_elem_of_nil in Hx|].
    simpl. lia.
Qed.

Lemma byte_count_le_length (b : Z) (l : list Z) :
  0 <= byte_count b l <= Z.of_nat (length l).
Proof.
  unfold byte_count. pose proof (length_filter (fun x => x = b) l). lia.
Qed.

(** The bytes [process_byte_frame] writes, for any result array with
    room for them. *)
Lemma process_byte_frame_out (d res : list Z) (data_len len0 : Z) :
  let cnt := count_loop d (replicate 256 0) 0 (Z.to_nat data_len) in
  let hits := nonzero_cells cnt 0 256 in
  (length hits <= length res)%nat ->
  exists res',
    process_byte_frame (Some d) data_len (Some res) (Some len0)
    = (0, Some res', Some (Z.of_nat (length hits))) /\
    length res' = length res /\
    take (length hits) res' = Z.of_nat <$> hits.
Proof.
  intros cnt hits Hroom. unfold process_byte_frame. fold cnt.
  destruct (collect_loop_spec cnt res 256 0 0) as (res' & Hrun & Hlen & Htake);
    [exact Hroom|].
  change (Z.of_nat 0) with 0 in Hrun. rewrite Hrun.
  exists res'. split; [reflexivity|]. split; [exact Hlen | exact Htake].
Qed.

Lemma process_byte_frame_spec
    (d res : list Z) (data_len len0 : Z) :
  Forall is_byte d ->
  data_len <= Z.of_nat (length d) ->
  (256 <= length res)%nat ->
  exists res' len',
    process_byte_frame (Some d) data_len (Some res) (Some len0)
    = (0, Some res', Some len') /\
    0 <= len' <= 256 /\
    length res' = length res /\
    StronglySorted Z.lt (take (Z.to_nat len') res') /\
    forall b,
      b ∈ take (Z.to_nat len') res'
      <-> is_byte b /\
          byte_count b (take (Z.to_nat data_len) d) mod 65536 <> 0.
Proof.
  intros Hd Hlen Hres.
  set (cnt := count_loop d (replicate 256 0) 0 (Z.to_nat data_len)).
  pose proof (nonzero_cells_length cnt 0 256) as Hhits.
  destruct (process_byte_frame_out d res data_len len0)
    as (res' & Hrun & Hlen' & Htake); [fold cnt; lia|]. fold cnt in Hrun, Htake.
  exists res', (Z.of_nat (length (nonzero_cells cnt 0 256))).
  split; [done|]. split; [lia|]. split; [done|].
  rewrite Nat2Z.id, Htake. split; [apply nonzero_cells_sorted|].
  intros b. rewrite elem_of_nonzero_cells.
  split; intros [Hb Hc]; (split; [done|]); unfold cnt in *;
    rewrite count_loop_cells in * by (done || lia);
    pose proof (Z.mod_pos_bound
                  (byte_count b (take (Z.to_nat data_len) d)) 65536); lia.
Qed.

(** X17.  [process_byte_frame] keeps a byte exactly when its number of
    occurrences among the first [data_len] input bytes is not a multiple
    of 65536 (the [uint16_t] counters wrap), and writes the kept bytes in
    strictly ascending order: the call returns 0, [*result_len] is the
    number of kept bytes, at most 256. *)
Theorem process_byte_frame_counts_mod_65536
    (d res : list Z) (data_len len0 : Z) :
  Forall is_byte d ->
  data_len <= Z.of_nat (length d) ->
  (256 <= length res)%nat ->
  exists res' len',
    process_byte_frame (Some d) data_len (Some res) (Some len0)
    = (0, Some res', Some len') /\
    0 <= len' <= 256 /\
    length res' = length res /\
    StronglySorted Z.lt (take (Z.to_nat len') res') /\
    forall b,
      b ∈ take (Z.to_nat len') res'
      <-> is_byte b /\
          byte_count b (take (Z.to_nat data_len) d) mod 65536 <> 0.
Proof. apply process_byte_frame_spec. Qed.

Lemma process_byte_frame_counts_mod_65536_witness :
  exists res',
    process_byte_frame (Some [3; 1; 3; 2; 1]) 5 (Some (replicate 256 0)) (Some 9)
    = (0, Some res', Some 3) /\
    take 3 res' = [1; 2; 3].
Proof.
  destruct (process_byte_frame_counts_mod_65536
              [3; 1; 3; 2; 1] (replicate 256 0) 5 9)
    as (res' & len' & Hrun & _); [| simpl; lia | simpl; lia |].
  - repeat constructor; unfold is_byte; lia.
  - exists res'. vm_compute in Hrun. injection Hrun as <- _. by vm_compute.
Defined.

Lemma nonzero_cells_NoDup cnt i n : NoDup (Z.of_nat <$> nonzero_cells cnt i n).
Proof.
  apply (NoDup_fmap_2 _). unfold nonzero_cells.
  apply NoDup_filter, NoDup_seq.
Qed.

(** X18.  On a frame of fewer than 65536 bytes [process_byte_frame]
    does what its comment says: the output holds exactly the distinct
    input bytes, in strictly ascending order (so sorted and without
    duplicates).  [*result_len] is at most [data_len] and at most 256,
    so a result array as long as the input is never overrun. *)
Theorem process_byte_frame_sorted_distinct
    (d res : list Z) (data_len len0 : Z) :
  Forall is_byte d ->
  data_len <= Z.of_nat (length d) ->
  data_len < 65536 ->
  (Z.to_nat data_len `min` 256 <= length res)%nat ->
  exists res' len',
    process_byte_frame (Some d) data_len (Some res) (Some len0)
    = (0, Some res', Some len') /\
    0 <= len' <= Z.of_nat (Z.to_nat data_len `min` 256) /\
    length res' = length res /\
    StronglySorted Z.lt (take (Z.to_nat len') res') /\
    forall b,
      b ∈ take (Z.to_nat len') res' <-> b ∈ take (Z.to_nat data_len) d.
Proof.
  intros Hd Hlen Hsmall Hres.
  set (n := Z.to_nat data_len) in *.
  set (cnt := count_loop d (replicate 256 0) 0 n).
  assert (forall b, b ∈ (Z.of_nat <$> nonzero_cells cnt 0 256)
                    <-> b ∈ take n d) as Hmem.
  { intros b. rewrite elem_of_nonzero_cells. split.
    - intros [Hb Hc]. unfold cnt in Hc.
      rewrite count_loop_cells in Hc by (done || lia).
      apply byte_count_pos_elem_of.
      pose proof (byte_count_le_length b (take n d)).
      destruct (decide (byte_count b (take n d) = 0)) as [Hz|]; [|lia].
      rewrite Hz in Hc. done.
    - intros Hin.
      assert (is_byte b) as Hb.
      { rewrite Forall_forall in Hd. apply Hd.
        by apply (subseteq_take n d). }
      split; [done|]. unfold cnt.
      rewrite count_loop_cells by (done || lia).
      apply byte_count_pos_elem_of in Hin.
      pose proof (byte_count_le_length b (take n d)) as Hle.
      rewrite length_take in Hle.
      rewrite Z.mod_small by lia. done. }
  assert (length (nonzero_cells cnt 0 256) <= n `min` 256)%nat as Hhits.
  { apply Nat.min_glb; [|apply nonzero_cells_length].
    rewrite <- (length_fmap Z.of_nat).
    etrans; [apply submseteq_length, NoDup_submseteq;
             [apply nonzero_cells_NoDup | intros b; apply Hmem]|].
    rewrite length_take. lia. }
  destruct (process_byte_frame_out d res data_len len0)
    as (res' & Hrun & Hlen' & Htake); [fold n cnt; lia|].
  fold n cnt in Hrun, Htake.
  exists res', (Z.of_nat (length (nonzero_cells cnt 0 256))).
  split; [done|]. split; [lia|]. split; [done|].
  rewrite Nat2Z.id, Htake. split; [apply nonzero_cells_sorted | done].
Qed.

Lemma process_byte_frame_sorted_distinct_witness :
  exists res',
    process_byte_frame (Some [9; 200; 9; 0; 200; 7]) 6
                       (Some (replicate 6 255)) (Some 0)
    = (0, Some res', Some 4) /\
    take 4 res' = [0; 7; 9; 200].
Proof.
  destruct (process_byte_frame_sorted_distinct
              [9; 200; 9; 0; 200; 7] (replicate 6 255) 6 0)
    as (res' & len' & Hrun & _); [| simpl; lia | lia | simpl; lia |].
  - repeat constructor; unfold is_byte; lia.
  - exists res'. vm_compute in Hrun. injection Hrun as <- _. by vm_compute.
Defined.

Lemma byte_count_replicate (b : Z) (n : nat) :
  byte_count b (replicate n b) = Z.of_nat n.
Proof.
  unfold byte_count. f_equal. induction n as [|n IH]; [done|].
  simpl. rewrite filter_cons_True by done. simpl. by rewrite IH.
Qed.

(** X19.  The counters are 16 bits wide: a byte that occurs exactly
    65536 times in the frame is left out of the result although it is in
    the input. *)
Theorem process_byte_frame_loses_byte_seen_65536_times
    (d res : list Z) (len0 b : Z) :
  Forall is_byte d ->
  (256 <= length res)%nat ->
  byte_count b d = 65536 ->
  exists res' len',
    process_byte_frame (Some d) (Z.of_nat (length d)) (Some res) (Some len0)
    = (0, Some res', Some len') /\
    b ∈ d /\ b ∉ take (Z.to_nat len') res'.
Proof.
  intros Hd Hres Hb.
  destruct (process_byte_frame_spec
              d res (Z.of_nat (length d)) len0 Hd)
    as (res' & len' & Hrun & _ & _ & _ & Hmem); [lia | done |].
  exists res', len'. split; [done|]. split.
  - apply byte_count_pos_elem_of. lia.
  - rewrite Hmem, Nat2Z.id, firstn_all, Hb. by intros [_ ?].
Qed.

Lemma process_byte_frame_loses_byte_seen_65536_times_witness :
  exists res' len',
    process_byte_frame (Some (replicate (Z.to_nat 65536) 7))
                       (Z.of_nat (length (replicate (Z.to_nat 65536) 7)))
                       (Some (replicate 256 0)) (Some 0)
    = (0, Some res', Some len') /\
    7 ∈ replicate (Z.to_nat 65536) 7 /\ 7 ∉ take (Z.to_nat len') res'.
Proof.
  apply process_byte_frame_loses_byte_seen_65536_times.
  - apply Forall_replicate. unfold is_byte. lia.
  - by rewrite length_replicate.
  - rewrite byte_count_replicate. lia.
Defined.

Lemma linear_loop_spec (data : list Z) (target : Z) (n i : nat) :
  (i + n <= length data)%nat ->
  match list_find (fun x => x = target) (take n (drop i data)) with
  | Some (k, _) => linear_loop data target i n = Z.of_nat (i + k)
  | None => linear_loop data target i n = -1
  end.
Proof.
  revert i. induction n as [|n IH]; intros i Hlen; [done|].
  destruct (lookup_lt_is_Some_2 data i) as [x Hx]; [lia|].
  rewrite (drop_S _ _ _ Hx). cbn [take linear_loop list_find].
  rewrite (cell_lookup _ _ _ Hx).
  destruct (decide (x = target)) as [->|Hne].
  - simpl. f_equal. lia.
  - specialize (IH (S i) ltac:(lia)).
    destruct (list_find (fun x => x = target) (take n (drop (S i) data)))
      as [[k y]|]; simpl; [|done].
    rewrite IH. lia.
Qed.

Lemma linear_search_spec
    (d : list Z) (data_len target : Z) :
  data_len <= Z.of_nat (length d) ->
  let r := linear_search_for_byte (Some d) data_len target in
  (r = -1 <-> target ∉ take (Z.to_nat data_len) d) /\
  (r <> -1 ->
     0 <= r < data_len /\
     d !! Z.to_nat r = Some target /\
     forall j, (j < Z.to_nat r)%nat -> d !! j <> Some target).
Proof.
  intros Hlen r. unfold r, linear_search_for_byte.
  destruct (decide (data_len <= 0)) as [Hle|Hpos].
  { replace (Z.to_nat data_len) with 0%nat by lia. simpl.
    split; [|done]. split; [intros _; apply not_elem_of_nil | done]. }
  set (n := Z.to_nat data_len).
  pose proof (linear_loop_spec d target n 0 ltac:(lia)) as Hspec.
  rewrite drop_0 in Hspec.
  destruct (list_find (fun x => x = target) (take n d)) as [[k y]|] eqn:Hfind.
  - apply list_find_Some in Hfind as (Hk & -> & Hfirst).
    pose proof (lookup_lt_Some _ _ _ Hk) as Hkn. rewrite length_take in Hkn.
    rewrite lookup_take_lt in Hk by lia.
    rewrite Hspec. simpl. split.
    + split; [lia|]. intros Hnot. exfalso. apply Hnot.
      apply elem_of_take. exists k. split; [done | lia].
    + intros _. rewrite Nat2Z.id. split; [lia|]. split; [done|].
      intros j Hj Hjt. apply (Hfirst j target); [|lia|done].
      rewrite lookup_take_lt by lia. done.
  - apply list_find_None in Hfind. rewrite Hspec. split; [|done].
    split; [|done]. intros _ Hin.
    rewrite Forall_forall in Hfind. by apply (Hfind target).
Qed.

(** X20.  [linear_search_for_byte] returns the index of the first
    occurrence of the target among the first [data_len] bytes, and -1
    exactly when the target does not occur there (or when [data] is
    [NULL] or [data_len] is not positive). *)
Theorem linear_search_finds_first
    (d : list Z) (data_len target : Z) :
  data_len <= Z.of_nat (length d) ->
  let r := linear_search_for_byte (Some d) data_len target in
  (r = -1 <-> target ∉ take (Z.to_nat data_len) d) /\
  (r <> -1 ->
     0 <= r < data_len /\
     d !! Z.to_nat r = Some target /\
     forall j, (j < Z.to_nat r)%nat -> d !! j <> Some target).
Proof. apply linear_search_spec. Qed.

Lemma linear_search_finds_first_witness :
  linear_search_for_byte (Some [5; 62; 7; 62]) 4 62 = 1 /\
  (linear_search_for_byte (Some [5; 62; 7; 62]) 4 9 = -1
   <-> 9 ∉ take (Z.to_nat 4) [5; 62; 7; 62]).
Proof.
  split; [reflexivity|].
  apply (linear_search_finds_first [5; 62; 7; 62] 4 9). simpl. lia.
Defined.

Lemma binary_mid_bounds (left right : Z) :
  left <= right ->
  left <= left + (right - left) `quot` 2 <= right.
Proof.
  intros Hle. rewrite Z.quot_div_nonneg by lia.
  pose proof (Z.div_pos (right - left) 2 ltac:(lia) ltac:(lia)).
  assert ((right - left) `div` 2 <= right - left)
    by (apply Z.div_le_upper_bound; lia).
  lia.
Qed.

Lemma binary_loop_terminates (fuel : nat) (d : list Z) (t left right : Z) :
  Z.max 0 (right - left + 1) < Z.of_nat fuel ->
  is_Some (binary_loop fuel d t left right).
Proof.
  revert left right. induction fuel as [|fuel IH]; intros left right Hfuel.
  - cbn [binary_loop]. lia.
  - cbn [binary_loop]. destruct (decide (left <= right)) as [Hle|]; [|by eexists].
    pose proof (binary_mid_bounds left right Hle) as Hmid.
    cbv zeta.
    destruct (decide (cell d (Z.to_nat (left + (right - left) `quot` 2)) = t));
      [by eexists|].
    destruct (decide (cell d (Z.to_nat (left + (right - left) `quot` 2)) < t));
      apply IH; lia.
Qed.

Lemma binary_loop_sound (fuel : nat) (d : list Z) (t left right r : Z) :
  0 <= left ->
  binary_loop fuel d t left right = Some r ->
  r = -1 \/ (left <= r <= right /\ cell d (Z.to_nat r) = t).
Proof.
  revert left right. induction fuel as [|fuel IH]; intros left right Hl Hrun;
    [done|].
  cbn [binary_loop] in Hrun.
  destruct (decide (left <= right)) as [Hle|]; [|injection Hrun as <-; by left].
  pose proof (binary_mid_bounds left right Hle) as Hmid.
  cbv zeta in Hrun.
  set (mid := left + (right - left) `quot` 2) in *.
  destruct (decide (cell d (Z.to_nat mid) = t)).
  { injection Hrun as <-. by right. }
  destruct (decide (cell d (Z.to_nat mid) < t)).
  - destruct (IH (mid + 1) right ltac:(lia) Hrun) as [->|[Hr Hc]]; [by left|].
    right. split; [lia | done].
  - destruct (IH left (mid - 1) ltac:(lia) Hrun) as [->|[Hr Hc]]; [by left|].
    right. split; [lia | done].
Qed.

(** On a range that is sorted, a loop that gives up has ruled out every
    index between [left] and [right]. *)
Lemma binary_loop_complete (fuel : nat) (d : list Z) (t left right : Z) :
  0 <= left ->
  (forall i j, 0 <= i -> i <= j -> j <= right ->
               cell d (Z.to_nat i) <= cell d (Z.to_nat j)) ->
  binary_loop fuel d t left right = Some (-1) ->
  forall k, left <= k <= right -> cell d (Z.to_nat k) <> t.
Proof.
  revert left right. induction fuel as [|fuel IH];
    intros left right Hl Hsorted Hrun k Hk; [done|].
  cbn [binary_loop] in Hrun.
  destruct (decide (left <= right)) as [Hle|]; [|lia].
  pose proof (binary_mid_bounds left right Hle) as Hmid.
  cbv zeta in Hrun.
  set (mid := left + (right - left) `quot` 2) in *.
  destruct (decide (cell d (Z.to_nat mid) = t)).
  { injection Hrun as Hrun. lia. }
  destruct (decide (cell d (Z.to_nat mid) < t)) as [Hlt|Hge].
  - destruct (decide (k <= mid)) as [Hkm|Hkm].
    + pose proof (Hsorted k mid ltac:(lia) Hkm ltac:(lia)). lia.
    + apply (IH (mid + 1) right ltac:(lia) Hsorted Hrun). lia.
  - destruct (decide (mid <= k)) as [Hkm|Hkm].
    + pose proof (Hsorted mid k ltac:(lia) Hkm ltac:(lia)). lia.
    + apply (IH left (mid - 1) ltac:(lia)); [|done|lia].
      intros i j Hi Hij Hj. apply Hsorted; lia.
Qed.

Lemma binary_search_runs (d : list Z) (data_len target : Z) :
  data_len <= Z.of_nat (length d) ->
  exists r,
    binary_search_for_byte (Some d) data_len target = Some r /\
    (r = -1 \/ (0 <= r < data_len /\ d !! Z.to_nat r = Some target)).
Proof.
  intros Hlen. unfold binary_search_for_byte.
  destruct (decide (data_len <= 0)); [exists (-1); by split; [|left]|].
  destruct (binary_loop_terminates (S (Z.to_nat data_len)) d target 0
              (data_len - 1)) as [r Hr]; [lia|].
  exists r. split; [done|].
  destruct (binary_loop_sound _ d target 0 (data_len - 1) r ltac:(lia) Hr)
    as [->|[Hb Hc]]; [by left|].
  right. split; [lia|].
  destruct (lookup_lt_is_Some_2 d (Z.to_nat r)) as [x Hx]; [lia|].
  rewrite (cell_lookup _ _ _ Hx) in Hc. by subst.
Qed.

(** X21.  [binary_search_for_byte] always terminates, within
    [data_len + 1] iterations, on sorted and unsorted frames alike, and
    never reports an index that does not hold the target: the result is
    -1 or an index below [data_len] whose byte is the target. *)
Theorem binary_search_sound (d : list Z) (data_len target : Z) :
  data_len <= Z.of_nat (length d) ->
  exists r,
    binary_search_for_byte (Some d) data_len target = Some r /\
    (r = -1 \/ (0 <= r < data_len /\ d !! Z.to_nat r = Some target)).
Proof. apply binary_search_runs. Qed.

Lemma binary_search_sound_witness :
  exists r,
    binary_search_for_byte (Some [9; 3; 62; 1; 5]) 5 62 = Some r /\
    (r = -1 \/ (0 <= r < 5 /\ [9; 3; 62; 1; 5] !! Z.to_nat r = Some 62)).
Proof. apply binary_search_sound. simpl. lia. Defined.

Lemma sorted_cells (d : list Z) (n : nat) (i j : Z) :
  StronglySorted Z.le (take n d) ->
  (n <= length d)%nat ->
  0 <= i -> i <= j -> j < Z.of_nat n ->
  cell d (Z.to_nat i) <= cell d (Z.to_nat j).
Proof.
  intros Hs Hn Hi Hij Hj.
  destruct (decide (i = j)) as [->|Hne]; [lia|].
  destruct (lookup_lt_is_Some_2 d (Z.to_nat i)) as [x Hx]; [lia|].
  destruct (lookup_lt_is_Some_2 d (Z.to_nat j)) as [y Hy]; [lia|].
  rewrite (cell_lookup _ _ _ Hx), (cell_lookup _ _ _ Hy).
  rewrite <- (take_drop (Z.to_nat j) (take n d)) in Hs.
  apply (StronglySorted_app_1_elem_of _ _ _ x y) in Hs; [done| |].
  - apply elem_of_take. exists (Z.to_nat i). split; [|lia].
    rewrite lookup_take_lt by lia. done.
  - apply list_elem_of_lookup. exists 0%nat.
    rewrite lookup_drop, Nat.add_0_r, lookup_take_lt by lia. done.
Qed.

Lemma binary_search_sorted_spec (d : list Z) (data_len target : Z) :
  data_len <= Z.of_nat (length d) ->
  StronglySorted Z.le (take (Z.to_nat data_len) d) ->
  exists r,
    binary_search_for_byte (Some d) data_len target = Some r /\
    (r = -1 <-> target ∉ take (Z.to_nat data_len) d) /\
    (r <> -1 -> d !! Z.to_nat r = Some target).
Proof.
  intros Hlen Hsorted.
  destruct (binary_search_runs d data_len target Hlen) as (r & Hrun & Hr).
  exists r. split; [done|]. split; [|intros ?; by destruct Hr as [?|[_ ?]]].
  split.
  - intros -> Hin. unfold binary_search_for_byte in Hrun.
    destruct (decide (data_len <= 0)) as [Hle|Hpos].
    { replace (Z.to_nat data_len) with 0%nat in Hin by lia.
      by apply not_elem_of_nil in Hin. }
    apply elem_of_take in Hin as (k & Hk & Hkn).
    apply (binary_loop_complete _ d target 0 (data_len - 1) ltac:(lia))
      with (k := Z.of_nat k) in Hrun; [| |lia].
    + apply Hrun. rewrite Nat2Z.id. by apply cell_lookup.
    + intros i j Hi Hij Hj.
      apply (sorted_cells d (Z.to_nat data_len)); [done|lia..].
  - intros Hnot. destruct Hr as [->|[Hb Hc]]; [done|].
    exfalso. apply Hnot. apply elem_of_take.
    exists (Z.to_nat r). split; [done | lia].
Qed.

(** X22.  On a frame sorted in ascending order, [binary_search_for_byte]
    finds the target whenever it is there: it returns -1 exactly when
    the target does not occur among the first [data_len] bytes. *)
Theorem binary_search_complete_on_sorted (d : list Z) (data_len target : Z) :
  data_len <= Z.of_nat (length d) ->
  StronglySorted Z.le (take (Z.to_nat data_len) d) ->
  exists r,
    binary_search_for_byte (Some d) data_len target = Some r /\
    (r = -1 <-> target ∉ take (Z.to_nat data_len) d) /\
    (r <> -1 -> d !! Z.to_nat r = Some target).
Proof. apply binary_search_sorted_spec. Qed.

Lemma binary_search_complete_on_sorted_witness :
  exists r,
    binary_search_for_byte (Some [1; 3; 5; 62; 62; 200]) 6 62 = Some r /\
    [1; 3; 5; 62; 62; 200] !! Z.to_nat r = Some 62.
Proof.
  destruct (binary_search_complete_on_sorted [1; 3; 5; 62; 62; 200] 6 62)
    as (r & Hrun & _ & Hfound); [simpl; lia | |].
  - simpl. repeat (constructor; [|repeat constructor; lia]). constructor.
  - exists r. split; [done|]. apply Hfound.
    vm_compute in Hrun. injection Hrun as <-. done.
Defined.

(** X23.  The index [binary_search_for_byte] returns need not be the
    first occurrence: on a frame of [n >= 3] equal bytes it returns the
    middle index [(n - 1) / 2], while [linear_search_for_byte] returns
    0. *)
Theorem binary_search_not_first_occurrence (n : nat) (b : Z) :
  (3 <= n)%nat ->
  binary_search_for_byte (Some (replicate n b)) (Z.of_nat n) b
  = Some ((Z.of_nat n - 1) `div` 2) /\
  linear_search_for_byte (Some (replicate n b)) (Z.of_nat n) b = 0 /\
  0 < (Z.of_nat n - 1) `div` 2.
Proof.
  intros Hn. split; [|split].
  - unfold binary_search_for_byte.
    destruct (decide (Z.of_nat n <= 0)); [lia|].
    cbn [binary_loop]. destruct (decide (0 <= Z.of_nat n - 1)); [|lia].
    cbv zeta. rewrite Z.sub_0_r, Z.add_0_l.
    rewrite Z.quot_div_nonneg by lia.
    assert ((Z.of_nat n - 1) `div` 2 < Z.of_nat n)
      by (apply Z.div_lt_upper_bound; lia).
    assert (0 <= (Z.of_nat n - 1) `div` 2) by (apply Z.div_pos; lia).
    unfold cell. rewrite lookup_replicate_2 by lia. simpl.
    by destruct (decide (b = b)).
  - unfold linear_search_for_byte.
    destruct (decide (Z.of_nat n <= 0)); [lia|].
    rewrite Nat2Z.id. destruct n as [|n]; [lia|]. simpl.
    unfold cell. simpl. by destruct (decide (b = b)).
  - apply Z.div_str_pos. lia.
Qed.

Lemma binary_search_not_first_occurrence_witness :
  binary_search_for_byte (Some (replicate 5 62)) 5 62 = Some 2 /\
  linear_search_for_byte (Some (replicate 5 62)) 5 62 = 0.
Proof.
  destruct (binary_search_not_first_occurrence 5 62) as (Hb & Hl & _); [lia|].
  exact (conj Hb Hl).
Defined.

Lemma swap_step_length data j : length (swap_step data j) = length data.
Proof.
  unfold swap_step. destruct (decide _); [|done]. by rewrite !length_insert.
Qed.

Lemma swap_step_lookup_ne data j k :
  k <> j -> k <> S j -> swap_step data j !! k = data !! k.
Proof.
  intros Hj HSj. unfold swap_step. destruct (decide _); [|done].
  by rewrite !list_lookup_insert_ne by done.
Qed.

Lemma swap_step_cells data j :
  (S j < length data)%nat ->
  cell (swap_step data j) j = Z.min (cell data j) (cell data (S j)) /\
  cell (swap_step data j) (S j) = Z.max (cell data j) (cell data (S j)).
Proof.
  intros Hj. unfold swap_step. destruct (decide _) as [Hgt|Hle].
  - split.
    + unfold cell at 1.
      rewrite list_lookup_insert_ne, list_lookup_insert_eq by lia.
      simpl. lia.
    + unfold cell at 1.
      rewrite list_lookup_insert_eq by (rewrite length_insert; lia).
      simpl. lia.
  - lia.
Qed.

Lemma swap_step_perm data j :
  (S j < length data)%nat -> swap_step data j ≡ₚ data.
Proof.
  intros Hj. unfold swap_step. destruct (decide _); [|done].
  destruct (lookup_lt_is_Some_2 data j) as [x Hx]; [lia|].
  destruct (lookup_lt_is_Some_2 data (S j)) as [y Hy]; [lia|].
  rewrite (cell_lookup _ _ _ Hx), (cell_lookup _ _ _ Hy).
  assert (drop (S j) data = y :: drop (S (S j)) data) as Hd
    by (by apply drop_S).
  transitivity (take j data ++ x :: y :: drop (S (S j)) data);
    [|by rewrite <- Hd, take_drop_middle].
  rewrite (insert_take_drop data j y) by lia.
  rewrite Hd.
  rewrite (insert_app_r_alt (take j data)) by (rewrite length_take; lia).
  rewrite length_take.
  replace (S j - j `min` length data)%nat with 1%nat by lia. simpl.
  apply Permutation_app_head, perm_swap.
Qed.

Lemma bubble_inner_length data j n :
  length (bubble_inner data j n) = length data.
Proof.
  revert data j. induction n as [|n IH]; intros data j; [done|].
  simpl. by rewrite IH, swap_step_length.
Qed.

Lemma bubble_inner_perm data j n :
  (j + n < length data)%nat -> bubble_inner data j n ≡ₚ data.
Proof.
  revert data j. induction n as [|n IH]; intros data j Hlen; [done|].
  simpl. rewrite IH by (rewrite swap_step_length; lia).
  apply swap_step_perm. lia.
Qed.

Lemma bubble_inner_lookup_outside data j n k :
  (k < j \/ j + n < k)%nat -> bubble_inner data j n !! k = data !! k.
Proof.
  revert data j. induction n as [|n IH]; intros data j Hk; [done|].
  simpl. rewrite IH by lia. apply swap_step_lookup_ne; lia.
Qed.

Lemma cell_eq_lookup (l1 l2 : list Z) (k1 k2 : nat) :
  l1 !! k1 = l2 !! k2 -> cell l1 k1 = cell l2 k2.
Proof. unfold cell. by intros ->. Qed.

(** After the inner loop the last cell it touched is at least every cell
    the segment held before. *)
Lemma bubble_inner_max data j n k :
  (j + n < length data)%nat ->
  (j <= k <= j + n)%nat ->
  cell data k <= cell (bubble_inner data j n) (j + n).
Proof.
  revert data j k. induction n as [|n IH]; intros data j k Hlen Hk.
  - simpl. replace k with j by lia. rewrite Nat.add_0_r. lia.
  - simpl. replace (j + S n)%nat with (S j + n)%nat by lia.
    destruct (swap_step_cells data j ltac:(lia)) as [Hmin Hmax].
    assert (forall k', (S j <= k' <= S j + n)%nat ->
              cell (swap_step data j) k'
              <= cell (bubble_inner (swap_step data j) (S j) n) (S j + n))
      as IH'.
    { intros k' Hk'. apply IH; [rewrite swap_step_length; lia | done]. }
    destruct (decide (k = j)) as [->|Hkj];
      [|destruct (decide (k = S j)) as [->|HkSj]].
    + transitivity (cell (swap_step data j) (S j)); [lia | apply IH'; lia].
    + transitivity (cell (swap_step data j) (S j)); [lia | apply IH'; lia].
    + rewrite <- (cell_eq_lookup (swap_step data j) data k k)
        by (by apply swap_step_lookup_ne).
      apply IH'. lia.
Qed.

Lemma bubble_inner_segment_perm data m :
  (m < length data)%nat ->
  take (S m) (bubble_inner data 0 m) ≡ₚ take (S m) data.
Proof.
  intros Hm.
  apply (Permutation_app_inv_r (drop (S m) data)).
  rewrite take_drop.
  assert (drop (S m) data = drop (S m) (bubble_inner data 0 m)) as ->.
  { apply list_eq. intros k. rewrite !lookup_drop.
    symmetry. apply bubble_inner_lookup_outside. lia. }
  rewrite take_drop. by apply bubble_inner_perm.
Qed.

(** Every cell of the segment after the pass held some cell of the
    segment before it. *)
Lemma bubble_inner_from_segment data m k :
  (m < length data)%nat -> (k <= m)%nat ->
  exists k', (k' <= m)%nat /\ cell (bubble_inner data 0 m) k = cell data k'.
Proof.
  intros Hm Hk.
  destruct (lookup_lt_is_Some_2 (bubble_inner data 0 m) k) as [x Hx];
    [rewrite bubble_inner_length; lia|].
  assert (x ∈ take (S m) (bubble_inner data 0 m)) as Hin.
  { apply elem_of_take. exists k. split; [done | lia]. }
  rewrite bubble_inner_segment_perm in Hin by done.
  apply elem_of_take in Hin as (k' & Hk' & Hlt).
  exists k'. split; [lia|].
  by rewrite (cell_lookup _ _ _ Hx), (cell_lookup _ _ _ Hk').
Qed.

Lemma bubble_pass_suffix_sorted data N i :
  length data = N -> (i < N)%nat ->
  suffix_sorted data N i ->
  suffix_sorted (bubble_inner data 0 (N - i - 1)) N (S i).
Proof.
  intros Hlen Hi Hinv a b Hab Hb HbN.
  set (m := (N - i - 1)%nat) in *.
  destruct (decide (b = m)) as [->|Hbm].
  - destruct (bubble_inner_from_segment data m a) as (a' & Ha' & ->);
      [lia | done |].
    pose proof (bubble_inner_max data 0 m a' ltac:(lia) ltac:(lia)) as Hmax.
    by rewrite Nat.add_0_l in Hmax.
  - rewrite (cell_eq_lookup (bubble_inner data 0 m) data b b)
      by (apply bubble_inner_lookup_outside; lia).
    destruct (decide (a <= m)%nat) as [Ham|Ham].
    + destruct (bubble_inner_from_segment data m a) as (a' & Ha' & ->);
        [lia | done |].
      apply Hinv; lia.
    + rewrite (cell_eq_lookup (bubble_inner data 0 m) data a a)
        by (apply bubble_inner_lookup_outside; lia).
      apply Hinv; lia.
Qed.

Lemma bubble_outer_spec data N i n :
  length data = N -> (i + n < N)%nat ->
  suffix_sorted data N i ->
  length (bubble_outer data N i n) = N /\
  bubble_outer data N i n ≡ₚ data /\
  suffix_sorted (bubble_outer data N i n) N (i + n).
Proof.
  revert data i. induction n as [|n IH]; intros data i Hlen Hin Hinv.
  - simpl. by rewrite Nat.add_0_r.
  - simpl.
    destruct (IH (bubble_inner data 0 (N - i - 1)) (S i)) as (Hl & Hp & Hs).
    + by rewrite bubble_inner_length.
    + lia.
    + apply bubble_pass_suffix_sorted; [done | lia | done].
    + split; [done|]. split.
      * rewrite Hp. apply bubble_inner_perm. lia.
      * by replace (i + S n)%nat with (S i + n)%nat by lia.
Qed.

Lemma cells_sorted_StronglySorted (l : list Z) :
  (forall a b, (a <= b)%nat -> (b < length l)%nat -> cell l a <= cell l b) ->
  StronglySorted Z.le l.
Proof.
  induction l as [|x l IH]; intros Hs; [constructor|].
  constructor.
  - apply IH. intros a b Hab Hb. apply (Hs (S a) (S b)); simpl; lia.
  - apply Forall_lookup. intros k y Hk.
    pose proof (lookup_lt_Some _ _ _ Hk).
    specialize (Hs 0%nat (S k) ltac:(lia) ltac:(simpl; lia)).
    unfold cell in Hs. simpl in Hs. by rewrite Hk in Hs.
Qed.

Lemma bubble_sort_spec (data : list Z) (N : nat) :
  length data = N ->
  StronglySorted Z.le (bubble_sort data N) /\
  bubble_sort data N ≡ₚ data /\
  length (bubble_sort data N) = N.
Proof.
  intros Hlen. unfold bubble_sort.
  destruct (decide (N = 0)%nat) as [->|Hpos].
  { destruct data; [|done]. simpl. split; [constructor | done]. }
  destruct (bubble_outer_spec data N 0 (N - 1)) as (Hl & Hp & Hs);
    [done | lia | |].
  { intros a b Hab Hb HbN. lia. }
  split; [|done].
  apply cells_sorted_StronglySorted. rewrite Hl. intros a b Hab Hb.
  destruct (decide (b = 0)%nat) as [->|Hb0].
  - replace a with 0%nat by lia. lia.
  - apply Hs; lia.
Qed.

(** X24.  The nested loops of [main] sort the frame: the result is in
    ascending order and is a rearrangement of the input, so no byte is
    lost or invented. *)
Theorem bubble_sort_sorts (data : list Z) (N : nat) :
  length data = N ->
  StronglySorted Z.le (bubble_sort data N) /\
  bubble_sort data N ≡ₚ data /\
  length (bubble_sort data N) = N.
Proof. apply bubble_sort_spec. Qed.

Lemma bubble_sort_sorts_witness :
  StronglySorted Z.le (bubble_sort [9; 3; 62; 3; 200; 0] 6) /\
  bubble_sort [9; 3; 62; 3; 200; 0] 6 = [0; 3; 3; 9; 62; 200].
Proof.
  split; [|reflexivity].
  apply (bubble_sort_sorts [9; 3; 62; 3; 200; 0] 6). reflexivity.
Defined.


